(** * Session manager and command gate of the mcp-core server

    A shallow embedding of [src/command-manager.ts] and
    [src/terminal-manager.ts], and the properties of the design document
    that are decided by these two files.

    Conventions of the embedding.
    - A JavaScript string is a [string]: a sequence of code units below 256
      (the Latin-1 range), on which [toLowerCase], [trim] and [includes] are
      written out exactly.
    - A JavaScript [Set<string>] is the list of its elements in insertion
      order, without duplicates; a [Map<number, V>] is a [gmap Z V].
    - Session identifiers and times (milliseconds) are integers in [Z]; the
      counter [nextPid] is far below the range where a JavaScript number
      stops being exact.
    - What the platform decides (whether [spawn], the termination signal or
      the write of the configuration file throw; when output chunks, exits,
      errors and timers are delivered) is an explicit argument of the
      operation or an event of the run. *)

From stdpp Require Import gmap strings list pretty sorting.

Local Open Scope Z_scope.
Local Open Scope string_scope.

(** ** JavaScript strings *)

Module JsString.

(** Code units A-Z, and the upper-case letters of the Latin-1 supplement
    (0xC0-0xDE without the multiplication sign 0xD7). *)
Definition is_upper (c : Ascii.ascii) : bool :=
  let n := Ascii.N_of_ascii c in
  ((65 <=? n) && (n <=? 90))%N
  || ((192 <=? n) && (n <=? 222) && negb (n =? 215))%N.

Definition lower_char (c : Ascii.ascii) : Ascii.ascii :=
  if is_upper c then Ascii.ascii_of_N (Ascii.N_of_ascii c + 32) else c.

(** [String.prototype.toLowerCase] *)
Fixpoint toLowerCase (s : string) : string :=
  match s with
  | EmptyString => EmptyString
  | String c s' => String (lower_char c) (toLowerCase s')
  end.

(** [s.startsWith(p)] *)
Fixpoint startsWith (s p : string) {struct p} : bool :=
  match p, s with
  | EmptyString, _ => true
  | String _ _, EmptyString => false
  | String a p', String b s' => if decide (a = b) then startsWith s' p' else false
  end.

(** [String.prototype.includes]: [p] occurs in [s] at some position. *)
Fixpoint includes (s p : string) : bool :=
  startsWith s p ||
  match s with
  | EmptyString => false
  | String _ s' => includes s' p
  end.

(** White space and line terminators below 256: TAB, LF, VT, FF, CR,
    SPACE and NO-BREAK SPACE. *)
Definition is_white_space (c : Ascii.ascii) : bool :=
  let n := Ascii.N_of_ascii c in
  ((9 <=? n) && (n <=? 13) || (n =? 32) || (n =? 160))%N.

Fixpoint trimStart (s : string) : string :=
  match s with
  | EmptyString => EmptyString
  | String c s' => if is_white_space c then trimStart s' else s
  end.

Fixpoint trimEnd (s : string) : string :=
  match s with
  | EmptyString => EmptyString
  | String c s' =>
      match trimEnd s' with
      | EmptyString => if is_white_space c then EmptyString else String c EmptyString
      | t => String c t
      end
  end.

(** [String.prototype.trim] *)
Definition trim (s : string) : string := trimEnd (trimStart s).

(** Every code unit of [s] is white space (so also when [s] is empty). *)
Fixpoint whitespace_only (s : string) : bool :=
  match s with
  | EmptyString => true
  | String c s' => is_white_space c && whitespace_only s'
  end.

(** [p] is a substring of [s]. *)
Definition substring_of (p s : string) : Prop :=
  exists a b : string, s = a +:+ p +:+ b.

End JsString.

(** ** JavaScript [Set<string>], in insertion order *)

Module JsSet.

Definition has (x : string) (s : list string) : bool := bool_decide (x ∈ s).

Definition add (x : string) (s : list string) : list string :=
  if has x s then s else (s ++ [x])%list.

Definition delete (x : string) (s : list string) : list string :=
  filter (fun y => y ≠ x) s.

(** [cmds.forEach(cmd => s.add(cmd))] *)
Definition add_all (cmds : list string) (s : list string) : list string :=
  foldl (fun acc cmd => add cmd acc) s cmds.

(** [new Set(array)] *)
Definition of_array (a : list string) : list string := add_all a [].

End JsSet.

(** ** The command gate: [src/command-manager.ts] *)

Definition DEFAULT_BLOCKED_COMMANDS : list string :=
  ["format"; "del /q"; "rm -rf"; "sudo"; "chmod 777"; "mkfs"].

(** What [loadConfig] finds at [configPath]: no file; a file on which
    [readFileSync] or [JSON.parse] throws (or that parses to [null]); a JSON
    value without an array under [blockedCommands]; or a configuration. *)
Inductive ConfigFile :=
| FileAbsent
| FileMalformed
| FileWithoutList
| FileConfig (cmds : list string).

(** What [fs.writeFileSync] does: it writes, or it throws and leaves some
    file state behind. *)
Inductive WriteOutcome :=
| WriteOk
| WriteThrows (left_behind : ConfigFile).

(** The singleton [CommandManager], with the file at [this.configPath]. *)
Record CommandManager := mkCommandManager {
  blockedCommands : list string;
  configFile : ConfigFile
}.

(** [saveConfig]: a failed write is logged, not thrown. *)
Definition saveConfig (wr : WriteOutcome) (cm : CommandManager) : CommandManager :=
  match wr with
  | WriteOk => mkCommandManager (blockedCommands cm) (FileConfig (blockedCommands cm))
  | WriteThrows f => mkCommandManager (blockedCommands cm) f
  end.

Definition loadConfig (wr : WriteOutcome) (cm : CommandManager) : CommandManager :=
  match configFile cm with
  | FileConfig cmds =>
      mkCommandManager (JsSet.add_all cmds (blockedCommands cm)) (configFile cm)
  | FileWithoutList => cm
  | FileAbsent => saveConfig wr cm
  | FileMalformed => cm
  end.

(** [new CommandManager(configPath)], run at every start of the server. *)
Definition newCommandManager (wr : WriteOutcome) (file : ConfigFile) : CommandManager :=
  loadConfig wr (mkCommandManager (JsSet.of_array DEFAULT_BLOCKED_COMMANDS) file).

(** The loop of [isCommandBlocked] over the set, in insertion order. *)
Fixpoint isCommandBlocked_loop (lowerCommand : string) (patterns : list string) : bool :=
  match patterns with
  | [] => false
  | blockedCmd :: rest =>
      if JsString.includes lowerCommand (JsString.toLowerCase blockedCmd)
      then true
      else isCommandBlocked_loop lowerCommand rest
  end.

Definition isCommandBlocked (command : string) (cm : CommandManager) : bool :=
  isCommandBlocked_loop (JsString.toLowerCase command) (blockedCommands cm).

(** [!command || command.trim() === ''] (the [typeof] test is decided by the
    type). *)
Definition is_empty_command (command : string) : bool :=
  bool_decide (command = "") || bool_decide (JsString.trim command = "").

Definition blockCommand (command : string) (wr : WriteOutcome) (cm : CommandManager)
  : string * CommandManager :=
  if is_empty_command command then
    ("Error: Cannot block empty command", cm)
  else
    let trimmedCommand := JsString.trim command in
    let cm1 := mkCommandManager (JsSet.add trimmedCommand (blockedCommands cm)) (configFile cm) in
    ("Successfully blocked command: " +:+ trimmedCommand, saveConfig wr cm1).

Definition unblockCommand (command : string) (wr : WriteOutcome) (cm : CommandManager)
  : string * CommandManager :=
  if is_empty_command command then
    ("Error: Cannot unblock empty command", cm)
  else
    let trimmedCommand := JsString.trim command in
    if JsSet.has trimmedCommand (blockedCommands cm) then
      let cm1 := mkCommandManager (JsSet.delete trimmedCommand (blockedCommands cm)) (configFile cm) in
      ("Successfully unblocked command: " +:+ trimmedCommand, saveConfig wr cm1)
    else
      ("Command not found in blocklist: " +:+ trimmedCommand, cm).

(** ** The session manager: [src/terminal-manager.ts] *)

(** The handle returned by [spawn]. Its operating-system [pid] is undefined
    when the interpreter could not be launched. *)
Record ChildProcess := mkChildProcess { osPid : option Z }.

Module TerminalSession.
Record t := mk {
  pid : Z;
  process : ChildProcess;
  lastOutput : string;
  isBlocked : bool;
  startTime : Z
}.
End TerminalSession.

Module CompletedSession.
Record t := mk {
  pid : Z;
  output : string;
  exitCode : option Z;
  startTime : Z;
  endTime : Z
}.
End CompletedSession.

Module CommandExecutionResult.
Record t := mk { pid : Z; output : string; isBlocked : bool }.
End CommandExecutionResult.

Module ActiveSession.
Record t := mk { pid : Z; isBlocked : bool; runtime : Z }.
End ActiveSession.

Record TerminalManager := mkTerminalManager {
  sessions : gmap Z TerminalSession.t;
  completedSessions : gmap Z CompletedSession.t;
  nextPid : Z
}.

(** The constructor of [TerminalManager]. *)
Definition newTerminalManager : TerminalManager := mkTerminalManager ∅ ∅ 1.

(** The promise returned by [executeCommand]: it settles once. *)
Inductive Promise :=
| Pending
| Fulfilled (result : CommandExecutionResult.t)
| Rejected.

Definition resolve (result : CommandExecutionResult.t) (p : Promise) : Promise :=
  match p with Pending => Fulfilled result | _ => p end.

Definition reject (p : Promise) : Promise :=
  match p with Pending => Rejected | _ => p end.

(** The closure of one [executeCommand] call that went past [spawn]: the
    variable [output] its callbacks append to, its promise, and the time
    at which its one-shot timer is due while that timer is pending. *)
Record Invocation := mkInvocation {
  output : string;
  promise : Promise;
  timer : option Z
}.

(** The two singletons, and the closures of the calls so far, keyed by the
    identifier each call took. *)
Record World := mkWorld {
  commandManager : CommandManager;
  terminalManager : TerminalManager;
  invocations : gmap Z Invocation
}.

(** [spawn] returns a child, or throws synchronously. *)
Inductive SpawnOutcome :=
| SpawnReturns (child : ChildProcess)
| SpawnThrows.

(** The platform-specific signalling ([taskkill] or [kill('SIGTERM')])
    returns, whether or not a signal reached the process, or throws. *)
Inductive SignalOutcome :=
| SignalReturns (delivered : bool)
| SignalThrows.

(** What [executeCommand] has done when it returns its promise: resolved it
    with the blocked result; rejected it in the [catch], after taking an
    identifier; or left it pending, owned by the closure of [pid]. *)
Inductive ExecuteOutcome :=
| Blocked (result : CommandExecutionResult.t)
| SpawnFailed (pid : Z)
| Started (pid : Z).

(** The delay that the timer of the platform applies to a requested delay:
    the delay itself between 1 and [TIMEOUT_MAX] milliseconds, and 1
    millisecond for any other. *)
Definition TIMEOUT_MAX : Z := 2147483647.

Definition setTimeout_delay (delay : Z) : Z :=
  if (1 <=? delay)%Z && (delay <=? TIMEOUT_MAX)%Z then delay else 1.

Section TerminalManagerCode.

(** [DEFAULT_COMMAND_TIMEOUT] of [config.ts], which is not among the
    sources. *)
Variable DEFAULT_COMMAND_TIMEOUT : Z.

Definition executeCommand (command : string) (timeout : option Z)
    (sp : SpawnOutcome) (now : Z) (w : World) : ExecuteOutcome * World :=
  let timeout := default DEFAULT_COMMAND_TIMEOUT timeout in
  if isCommandBlocked command (commandManager w) then
    (Blocked (CommandExecutionResult.mk (-1)
                ("Command blocked for security reasons: " +:+ command) true),
     w)
  else
    let tm := terminalManager w in
    let pid := nextPid tm in
    let tm1 := mkTerminalManager (sessions tm) (completedSessions tm) (pid + 1) in
    match sp with
    | SpawnThrows =>
        (SpawnFailed pid, mkWorld (commandManager w) tm1 (invocations w))
    | SpawnReturns childProcess =>
        let output := "" in
        let session := TerminalSession.mk pid childProcess output false now in
        let tm2 := mkTerminalManager (<[pid := session]> (sessions tm1))
                     (completedSessions tm1) (nextPid tm1) in
        (Started pid,
         mkWorld (commandManager w) tm2
           (<[pid := mkInvocation output Pending (Some (now + setTimeout_delay timeout))]>
              (invocations w)))
    end.

(** [childProcess.stdout.on('data')] and [childProcess.stderr.on('data')] *)
Definition onData (pid : Z) (data : string) (w : World) : World :=
  match invocations w !! pid with
  | None => w
  | Some inv =>
      mkWorld (commandManager w) (terminalManager w)
        (<[pid := mkInvocation (output inv +:+ data) (promise inv) (timer inv)]> (invocations w))
  end.

(** The callback passed to [setTimeout]; the timer runs it once. When the
    platform runs it is a matter of the run (see [punctual]). *)
Definition onTimeout (pid : Z) (w : World) : World :=
  match invocations w !! pid with
  | None => w
  | Some inv =>
      match timer inv with
      | None => w
      | Some _ =>
          let result := CommandExecutionResult.mk pid (output inv) false in
          mkWorld (commandManager w) (terminalManager w)
            (<[pid := mkInvocation (output inv) (resolve result (promise inv)) None]>
               (invocations w))
      end
  end.

(** [childProcess.on('exit')] *)
Definition onExit (pid : Z) (code : option Z) (now : Z) (w : World) : World :=
  match invocations w !! pid with
  | None => w
  | Some inv =>
      let tm := terminalManager w in
      match sessions tm !! pid with
      | Some session =>
          let completedSession :=
            CompletedSession.mk pid (TerminalSession.lastOutput session +:+ output inv)
              code (TerminalSession.startTime session) now in
          mkWorld (commandManager w)
            (mkTerminalManager (delete pid (sessions tm))
               (<[pid := completedSession]> (completedSessions tm)) (nextPid tm))
            (invocations w)
      | None => w
      end
  end.

(** [childProcess.on('error')] *)
Definition onError (pid : Z) (w : World) : World :=
  match invocations w !! pid with
  | None => w
  | Some inv =>
      mkWorld (commandManager w) (terminalManager w)
        (<[pid := mkInvocation (output inv) (reject (promise inv)) (timer inv)]> (invocations w))
  end.

(** [readOutput]. The not-found text renders the identifier in decimal
    digits, as the template literal does for a number below 10^21 in
    absolute value. *)
Definition readOutput (pid : Z) (tm : TerminalManager) : string :=
  match sessions tm !! pid with
  | None =>
      match completedSessions tm !! pid with
      | Some completed => CompletedSession.output completed
      | None => "No session found with PID " +:+ pretty pid
      end
  | Some session => TerminalSession.lastOutput session
  end.

Definition forceTerminate (pid : Z) (sg : SignalOutcome) (now : Z)
    (tm : TerminalManager) : bool * TerminalManager :=
  match sessions tm !! pid with
  | None => (false, tm)
  | Some session =>
      match sg with
      | SignalThrows => (false, tm)
      | SignalReturns _ =>
          let completedSession :=
            CompletedSession.mk pid (TerminalSession.lastOutput session) None
              (TerminalSession.startTime session) now in
          (true,
           mkTerminalManager (delete pid (sessions tm))
             (<[pid := completedSession]> (completedSessions tm)) (nextPid tm))
      end
  end.

(** [listSessions]; the order of the entries is not modelled. *)
Definition listSessions (now : Z) (tm : TerminalManager) : list ActiveSession.t :=
  (fun entry : Z * TerminalSession.t =>
     ActiveSession.mk entry.1 (TerminalSession.isBlocked entry.2)
       (Z.div (now - TerminalSession.startTime entry.2) 1000))
  <$> map_to_list (sessions tm).

(** ** Runs of the server

    The server is single-threaded: a run is a sequence of calls from the
    protocol layer and of callbacks delivered by the platform, each at a
    time [now], each executed to its end before the next. *)
Inductive Event :=
| CallExecuteCommand (command : string) (timeout : option Z) (sp : SpawnOutcome)
| CallReadOutput (pid : Z)
| CallForceTerminate (pid : Z) (sg : SignalOutcome)
| CallListSessions
| CallBlockCommand (command : string) (wr : WriteOutcome)
| CallUnblockCommand (command : string) (wr : WriteOutcome)
| Data (pid : Z) (chunk : string)
| Exit (pid : Z) (code : option Z)
| Error (pid : Z)
| Timeout (pid : Z).

Inductive Response :=
| RExecute (o : ExecuteOutcome)
| RText (s : string)
| RBool (b : bool)
| RSessions (l : list ActiveSession.t)
| RCallback.

Definition step (now : Z) (ev : Event) (w : World) : Response * World :=
  match ev with
  | CallExecuteCommand command timeout sp =>
      let r := executeCommand command timeout sp now w in (RExecute r.1, r.2)
  | CallReadOutput pid => (RText (readOutput pid (terminalManager w)), w)
  | CallForceTerminate pid sg =>
      let r := forceTerminate pid sg now (terminalManager w) in
      (RBool r.1, mkWorld (commandManager w) r.2 (invocations w))
  | CallListSessions => (RSessions (listSessions now (terminalManager w)), w)
  | CallBlockCommand command wr =>
      let r := blockCommand command wr (commandManager w) in
      (RText r.1, mkWorld r.2 (terminalManager w) (invocations w))
  | CallUnblockCommand command wr =>
      let r := unblockCommand command wr (commandManager w) in
      (RText r.1, mkWorld r.2 (terminalManager w) (invocations w))
  | Data pid chunk => (RCallback, onData pid chunk w)
  | Exit pid code => (RCallback, onExit pid code now w)
  | Error pid => (RCallback, onError pid w)
  | Timeout pid => (RCallback, onTimeout pid w)
  end.

Fixpoint exec (evs : list (Z * Event)) (w : World) : World :=
  match evs with
  | [] => w
  | (now, ev) :: rest => exec rest (step now ev w).2
  end.

Fixpoint responses (evs : list (Z * Event)) (w : World) : list Response :=
  match evs with
  | [] => []
  | (now, ev) :: rest => (step now ev w).1 :: responses rest (step now ev w).2
  end.

(** The platform delivers the timers of the run on time: whenever the
    callback of a pending timer runs, the timer is due. *)
Fixpoint punctual (evs : list (Z * Event)) (w : World) : Prop :=
  match evs with
  | [] => True
  | (now, ev) :: rest =>
      match ev with
      | Timeout pid =>
          match invocations w !! pid with
          | Some inv =>
              match timer inv with
              | Some due => due <= now
              | None => True
              end
          | None => True
          end
      | _ => True
      end /\ punctual rest (step now ev w).2
  end.

End TerminalManagerCode.

(** The server at start-up: the gate loaded from the configuration file, no
    session, no call yet. *)
Definition boot (wr : WriteOutcome) (file : ConfigFile) : World :=
  mkWorld (newCommandManager wr file) newTerminalManager ∅.

(** The state, in world [w], of the promise that a call returned. *)
Definition promise_of (o : ExecuteOutcome) (w : World) : Promise :=
  match o with
  | Blocked result => Fulfilled result
  | SpawnFailed _ => Rejected
  | Started pid =>
      match invocations w !! pid with
      | Some inv => promise inv
      | None => Pending
      end
  end.

(** The identifiers taken by the [executeCommand] calls of a run, in order,
    and those among them that became sessions. *)
Definition allocated_id (r : Response) : option Z :=
  match r with
  | RExecute (Started pid) | RExecute (SpawnFailed pid) => Some pid
  | _ => None
  end.

Definition session_id (r : Response) : option Z :=
  match r with
  | RExecute (Started pid) => Some pid
  | _ => None
  end.

Definition allocated_ids (rs : list Response) : list Z := omap allocated_id rs.
Definition session_ids (rs : list Response) : list Z := omap session_id rs.

(** The NUL character, which [spawn] refuses in an argument. *)
Definition NUL : string := String (Ascii.ascii_of_N 0) EmptyString.

(** A short run: the server starts without a configuration file, is asked
    to run [echo hello; sleep 5] with a timeout of 100 ms at time 0, and a
    chunk of output arrives at time 20. *)
Definition hello_child : ChildProcess := mkChildProcess (Some 4242).

Definition hello_run : list (Z * Event) :=
  [(0, CallExecuteCommand "echo hello; sleep 5" (Some 100) (SpawnReturns hello_child));
   (20, Data 1 "hello")].

(** Earlier entries of the list are smaller than later ones. *)
Definition strictly_increasing (l : list Z) : Prop :=
  forall (i j : nat) (a b : Z),
    (i < j)%nat -> l !! i = Some a -> l !! j = Some b -> a < b.

(** The state invariant of a run: identifiers in use lie in
    [1, nextPid); no identifier is both active and archived; an active
    session still holds the empty snapshot taken when it was stored, and the
    closure of its call exists. *)
Record consistent (w : World) : Prop := mkConsistent {
  next_positive : 1 <= nextPid (terminalManager w);
  sessions_below : forall pid s,
    sessions (terminalManager w) !! pid = Some s ->
    1 <= pid < nextPid (terminalManager w);
  completed_below : forall pid c,
    completedSessions (terminalManager w) !! pid = Some c ->
    1 <= pid < nextPid (terminalManager w);
  invocations_below : forall pid inv,
    invocations w !! pid = Some inv ->
    1 <= pid < nextPid (terminalManager w);
  active_not_archived : forall pid s,
    sessions (terminalManager w) !! pid = Some s ->
    completedSessions (terminalManager w) !! pid = None;
  active_snapshot : forall pid s,
    sessions (terminalManager w) !! pid = Some s ->
    TerminalSession.lastOutput s = "" /\ is_Some (invocations w !! pid)
}.

(** ** The rest of the gate *)

(** The string is empty or starts with a code unit that is not white
    space. *)
Definition no_leading_space (s : string) : Prop :=
  match s with
  | EmptyString => True
  | String c _ => JsString.is_white_space c = false
  end.

(** The order of the default [Array.prototype.sort]: strings compared code
    unit by code unit, a proper prefix first. *)
Definition code_unit_le (a b : string) : Prop := String.leb a b = true.

#[local] Instance code_unit_le_dec : RelDecision code_unit_le.
Proof. intros a b. unfold code_unit_le. apply _. Defined.

(** [listBlockedCommands]: [Array.from(this.blockedCommands).sort()]. The
    order above is total and antisymmetric, so the sorted array does not
    depend on the sorting algorithm. *)
Definition listBlockedCommands (cm : CommandManager) : list string :=
  merge_sort code_unit_le (blockedCommands cm).

(** ** More on runs *)

(** The chunks delivered to the output callbacks of [pid] along a run,
    concatenated in the order of their arrival. *)
Fixpoint captured (pid : Z) (evs : list (Z * Event)) : string :=
  match evs with
  | [] => ""
  | (_, Data pid' chunk) :: rest =>
      if decide (pid' = pid) then chunk +:+ captured pid rest else captured pid rest
  | _ :: rest => captured pid rest
  end.

(** The identifier is that of a session, active or archived. *)
Definition known (id : Z) (tm : TerminalManager) : Prop :=
  is_Some (sessions tm !! id) \/ is_Some (completedSessions tm !! id).

(** Each active session is stored under its own identifier and is not
    marked blocked. *)
Definition sessions_keyed (tm : TerminalManager) : Prop :=
  forall pid session, sessions tm !! pid = Some session ->
    TerminalSession.pid session = pid /\ TerminalSession.isBlocked session = false.

(** The times of a run do not decrease, from [t0] on; [clock] is the time
    of its last event. *)
Fixpoint chronological (t0 : Z) (evs : list (Z * Event)) : Prop :=
  match evs with
  | [] => True
  | (t, _) :: rest => t0 <= t /\ chronological t rest
  end.

Fixpoint clock (t0 : Z) (evs : list (Z * Event)) : Z :=
  match evs with
  | [] => t0
  | (t, _) :: rest => clock t rest
  end.

(** No active session started after [now], and no archived one ended
    before it started. *)
Definition timed (now : Z) (tm : TerminalManager) : Prop :=
  (forall pid session, sessions tm !! pid = Some session ->
     TerminalSession.startTime session <= now) /\
  (forall pid completed, completedSessions tm !! pid = Some completed ->
     CompletedSession.startTime completed <= CompletedSession.endTime completed).

(** The run [hello_run], followed by a forced termination of session 1 at
    time 50. *)
Definition terminated_run : list (Z * Event) :=
  (hello_run ++ [(50, CallForceTerminate 1 (SignalReturns true))])%list.

(** ** The file operations: [src/tools/filesystem.ts] *)

(** A call either returns a value or throws an error with a message. *)
Inductive Outcome (A : Type) :=
| Returns (value : A)
| Throws (message : string).
Arguments Returns {A} value.
Arguments Throws {A} message.

(** The calls an operation makes to [node:fs/promises] and to [glob]. *)
Inductive FsCall :=
| FsReadFile (path : string)
| FsMkdir (path : string)
| FsWriteFile (path content : string)
| FsRename (source destination : string)
| FsReaddir (path : string)
| FsGlob (pattern : string).

(** What an operation has done when it settles: the calls it made, in
    order, its outcome, and the module variable [allowedDirectories]. *)
Record Done (A : Type) := mkDone {
  calls : list FsCall;
  outcome : Outcome A;
  allowedDirectories : list string
}.
Arguments mkDone {A} calls outcome allowedDirectories.
Arguments calls {A} d.
Arguments outcome {A} d.
Arguments allowedDirectories {A} d.

(** The line feed of the template literals. *)
Definition LF : string := String (Ascii.ascii_of_N 10) EmptyString.

(** [a || b] on an environment variable: an undefined or empty [a] is
    falsy. *)
Definition or_else (a : option string) (b : string) : string :=
  match a with
  | Some s => if bool_decide (s = "") then b else s
  | None => b
  end.

Section FilesystemCode.

(** The platform: [path.sep], [process.cwd()], the two environment
    variables, [path.resolve], [path.dirname] and [path.join]. *)
Variables (sep cwd : string) (HOME USERPROFILE : option string).
Variables (resolve dirname : string -> string) (join : string -> string -> string).

(** The list that [initAllowedDirectories] assigns. *)
Definition initAllowedDirectories : list string :=
  let homeDir := or_else HOME (or_else USERPROFILE "") in
  [cwd; homeDir; "C:/"; "D:/"; "/tmp"].

Fixpoint isAllowedPath_loop (resolvedPath : string) (dirs : list string) : bool :=
  match dirs with
  | [] => false
  | allowedDir :: rest =>
      if bool_decide (resolvedPath = allowedDir)
         || JsString.startsWith resolvedPath (allowedDir +:+ sep)
      then true
      else isAllowedPath_loop resolvedPath rest
  end.

(** [isAllowedPath]: the answer, and [allowedDirectories] after the call. *)
Definition isAllowedPath (filePath : string) (dirs : list string) : bool * list string :=
  let dirs := if (length dirs =? 0)%nat then initAllowedDirectories else dirs in
  (isAllowedPath_loop (resolve filePath) dirs, dirs).

Definition listAllowedDirectories (dirs : list string) : list string * list string :=
  let dirs := if (length dirs =? 0)%nat then initAllowedDirectories else dirs in
  (dirs, dirs).

(** [readFile]; [read] is what [fs.readFile] does if it is called. *)
Definition readFile (filePath : string) (read : Outcome string) (dirs : list string)
  : Done string :=
  let allowed := isAllowedPath filePath dirs in
  if negb allowed.1 then
    mkDone [] (Throws ("Error reading file: " +:+ "Access denied to path: " +:+ filePath))
      allowed.2
  else
    match read with
    | Returns content => mkDone [FsReadFile filePath] (Returns content) allowed.2
    | Throws message =>
        mkDone [FsReadFile filePath] (Throws ("Error reading file: " +:+ message)) allowed.2
    end.

(** The loop of [readMultipleFiles]; [reads i] is what [fs.readFile] does
    for the path at index [i] if it is called. *)
Fixpoint readMultipleFiles_loop (i : nat) (filePaths : list string)
    (reads : nat -> Outcome string) (made : list FsCall) (results : list string)
    (dirs : list string) : Done (list string) :=
  match filePaths with
  | [] => mkDone made (Returns results) dirs
  | filePath :: rest =>
      let r := readFile filePath (reads i) dirs in
      let line :=
        match outcome r with
        | Returns content => "File: " +:+ filePath +:+ LF +:+ content
        | Throws message => "Error reading " +:+ filePath +:+ ": " +:+ message
        end in
      readMultipleFiles_loop (S i) rest reads (made ++ calls r)%list
        (results ++ [line])%list (allowedDirectories r)
  end.

Definition readMultipleFiles (filePaths : list string) (reads : nat -> Outcome string)
    (dirs : list string) : Done (list string) :=
  readMultipleFiles_loop 0 filePaths reads [] [] dirs.

(** [writeFile]; [made] and [written] are what [fs.mkdir] and
    [fs.writeFile] do if they are called. *)
Definition writeFile (filePath content : string) (made written : Outcome unit)
    (dirs : list string) : Done unit :=
  let allowed := isAllowedPath filePath dirs in
  if negb allowed.1 then
    mkDone [] (Throws ("Error writing file: " +:+ "Access denied to path: " +:+ filePath))
      allowed.2
  else
    let directory := dirname filePath in
    match made with
    | Throws message =>
        mkDone [FsMkdir directory] (Throws ("Error writing file: " +:+ message)) allowed.2
    | Returns _ =>
        match written with
        | Throws message =>
            mkDone [FsMkdir directory; FsWriteFile filePath content]
              (Throws ("Error writing file: " +:+ message)) allowed.2
        | Returns _ =>
            mkDone [FsMkdir directory; FsWriteFile filePath content] (Returns tt) allowed.2
        end
    end.

Definition createDirectory (dirPath : string) (made : Outcome unit) (dirs : list string)
  : Done unit :=
  let allowed := isAllowedPath dirPath dirs in
  if negb allowed.1 then
    mkDone [] (Throws ("Error creating directory: " +:+ "Access denied to path: " +:+ dirPath))
      allowed.2
  else
    match made with
    | Throws message =>
        mkDone [FsMkdir dirPath] (Throws ("Error creating directory: " +:+ message)) allowed.2
    | Returns _ => mkDone [FsMkdir dirPath] (Returns tt) allowed.2
    end.

(** [listDirectory]; an entry of [fs.readdir] is its [isDirectory()] and its
    name. *)
Definition listDirectory (dirPath : string) (read : Outcome (list (bool * string)))
    (dirs : list string) : Done (list string) :=
  let allowed := isAllowedPath dirPath dirs in
  if negb allowed.1 then
    mkDone [] (Throws ("Error listing directory: " +:+ "Access denied to path: " +:+ dirPath))
      allowed.2
  else
    match read with
    | Throws message =>
        mkDone [FsReaddir dirPath] (Throws ("Error listing directory: " +:+ message)) allowed.2
    | Returns entries =>
        mkDone [FsReaddir dirPath]
          (Returns ((fun entry : bool * string =>
                       let prefix := if entry.1 then "[DIR] " else "[FILE]" in
                       prefix +:+ " " +:+ entry.2) <$> entries))
          allowed.2
    end.

(** [moveFile]. The destination is checked only when the source is allowed;
    the message of the denial checks the source once more. *)
Definition moveFile (sourcePath destPath : string) (made renamed : Outcome unit)
    (dirs : list string) : Done unit :=
  let source := isAllowedPath sourcePath dirs in
  if negb source.1 then
    mkDone [] (Throws ("Error moving file: " +:+ "Access denied to path: " +:+
                       (if negb (isAllowedPath sourcePath source.2).1
                        then sourcePath else destPath)))
      (isAllowedPath sourcePath source.2).2
  else
    let dest := isAllowedPath destPath source.2 in
    if negb dest.1 then
      mkDone [] (Throws ("Error moving file: " +:+ "Access denied to path: " +:+
                         (if negb (isAllowedPath sourcePath dest.2).1
                          then sourcePath else destPath)))
        (isAllowedPath sourcePath dest.2).2
    else
      let directory := dirname destPath in
      match made with
      | Throws message =>
          mkDone [FsMkdir directory] (Throws ("Error moving file: " +:+ message)) dest.2
      | Returns _ =>
          match renamed with
          | Throws message =>
              mkDone [FsMkdir directory; FsRename sourcePath destPath]
                (Throws ("Error moving file: " +:+ message)) dest.2
          | Returns _ =>
              mkDone [FsMkdir directory; FsRename sourcePath destPath] (Returns tt) dest.2
          end
      end.

(** [searchFiles]: only [dirPath] is checked; [glob] receives the joined
    pattern. *)
Definition searchFiles (dirPath pattern : string) (found : Outcome (list string))
    (dirs : list string) : Done (list string) :=
  let allowed := isAllowedPath dirPath dirs in
  if negb allowed.1 then
    mkDone [] (Throws ("Error searching files: " +:+ "Access denied to path: " +:+ dirPath))
      allowed.2
  else
    match found with
    | Throws message =>
        mkDone [FsGlob (join dirPath pattern)]
          (Throws ("Error searching files: " +:+ message)) allowed.2
    | Returns matches => mkDone [FsGlob (join dirPath pattern)] (Returns matches) allowed.2
    end.

End FilesystemCode.

(** * Properties *)

(** ** Strings *)

Lemma append_cons (c : Ascii.ascii) (s t : string) :
  String c s +:+ t = String c (s +:+ t).
Proof. reflexivity. Qed.

Lemma append_empty_l (s : string) : "" +:+ s = s.
Proof. reflexivity. Qed.

Lemma append_empty_r (s : string) : s +:+ "" = s.
Proof. induction s as [|c s IH]; [done|]. by rewrite append_cons, IH. Qed.

Lemma startsWith_spec (s p : string) :
  JsString.startsWith s p = true <-> exists b, s = p +:+ b.
Proof.
  revert s. induction p as [|a p IH]; intros s; simpl.
  - split; [intros _; by exists s | done].
  - destruct s as [|b s].
    + split; [done | intros [t Ht]; discriminate Ht].
    + destruct (decide (a = b)) as [->|Hne].
      * rewrite IH. split; intros [t Ht]; exists t.
        -- by rewrite append_cons, Ht.
        -- rewrite append_cons in Ht. by injection Ht.
      * split; [done | intros [t Ht]]. rewrite append_cons in Ht.
        injection Ht as Hab _. by destruct Hne.
Qed.

Lemma includes_spec (s p : string) :
  JsString.includes s p = true <-> JsString.substring_of p s.
Proof.
  unfold JsString.substring_of. induction s as [|c s IH].
  - cbn [JsString.includes]. rewrite orb_false_r, startsWith_spec. split.
    + intros [b Hb]. by exists "", b.
    + intros (a & b & Hab). destruct a as [|x a]; [by exists b | discriminate Hab].
  - cbn [JsString.includes]. rewrite orb_true_iff, startsWith_spec, IH. split.
    + intros [[b Hb] | (a & b & Hab)].
      * by exists "", b.
      * exists (String c a), b. by rewrite append_cons, Hab.
    + intros (a & b & Hab). destruct a as [|x a].
      * left. by exists b.
      * right. exists a, b. rewrite append_cons in Hab. by injection Hab.
Qed.

(** ** The set of patterns *)

Lemma has_true (x : string) (s : list string) : JsSet.has x s = true <-> x ∈ s.
Proof. unfold JsSet.has. apply bool_decide_eq_true. Qed.

Lemma has_false (x : string) (s : list string) : JsSet.has x s = false <-> x ∉ s.
Proof. unfold JsSet.has. apply bool_decide_eq_false. Qed.

Lemma elem_of_add (x y : string) (s : list string) :
  y ∈ JsSet.add x s <-> y = x \/ y ∈ s.
Proof.
  unfold JsSet.add. destruct (JsSet.has x s) eqn:Hx.
  - apply has_true in Hx. split; [by right | intros [->|]; done].
  - rewrite elem_of_app, list_elem_of_singleton. tauto.
Qed.

Lemma add_present (x : string) (s : list string) : x ∈ s -> JsSet.add x s = s.
Proof. intros Hx. unfold JsSet.add. by rewrite (proj2 (has_true x s) Hx). Qed.

Lemma add_absent (x : string) (s : list string) : x ∉ s -> JsSet.add x s = (s ++ [x])%list.
Proof. intros Hx. unfold JsSet.add. by rewrite (proj2 (has_false x s) Hx). Qed.

Lemma add_idempotent (x : string) (s : list string) :
  JsSet.add x (JsSet.add x s) = JsSet.add x s.
Proof. apply add_present, elem_of_add. by left. Qed.

Lemma elem_of_add_all (cmds s : list string) (y : string) :
  y ∈ JsSet.add_all cmds s <-> y ∈ s \/ y ∈ cmds.
Proof.
  unfold JsSet.add_all. revert s. induction cmds as [|c cmds IH]; intros s; simpl.
  - rewrite elem_of_nil. tauto.
  - rewrite IH, elem_of_add, elem_of_cons. tauto.
Qed.

Lemma elem_of_delete (x y : string) (s : list string) :
  y ∈ JsSet.delete x s <-> y ∈ s /\ y ≠ x.
Proof. unfold JsSet.delete. rewrite list_elem_of_filter. tauto. Qed.

Lemma elem_of_of_array (a : list string) (y : string) :
  y ∈ JsSet.of_array a <-> y ∈ a.
Proof. unfold JsSet.of_array. rewrite elem_of_add_all, elem_of_nil. tauto. Qed.

(** ** The command gate *)

Lemma isCommandBlocked_loop_spec (lc : string) (patterns : list string) :
  isCommandBlocked_loop lc patterns = true <->
  exists p, p ∈ patterns /\ JsString.substring_of (JsString.toLowerCase p) lc.
Proof.
  induction patterns as [|b rest IH]; simpl.
  - split; [done | intros (p & Hp & _); by apply elem_of_nil in Hp].
  - destruct (JsString.includes lc (JsString.toLowerCase b)) eqn:Hb.
    + split; [intros _ | done]. exists b. split; [by left | by apply includes_spec].
    + rewrite IH. split; intros (p & Hp & Hsub).
      * exists p. split; [by right | done].
      * apply elem_of_cons in Hp as [-> | Hp].
        -- apply includes_spec in Hsub. congruence.
        -- by exists p.
Qed.

(** [isBlocked(command)] is true iff the lower-cased command contains a
    lower-cased pattern of the set as a substring. *)
Lemma isCommandBlocked_spec (command : string) (cm : CommandManager) :
  isCommandBlocked command cm = true <->
  exists p, p ∈ blockedCommands cm /\
    JsString.substring_of (JsString.toLowerCase p) (JsString.toLowerCase command).
Proof. apply isCommandBlocked_loop_spec. Qed.

Lemma is_empty_command_spec (command : string) :
  is_empty_command command = true <-> JsString.trim command = "".
Proof.
  unfold is_empty_command. rewrite orb_true_iff, !bool_decide_eq_true.
  split; [intros [-> | H]; done | by right].
Qed.

Lemma trimStart_empty (s : string) :
  JsString.trimStart s = "" <-> JsString.whitespace_only s = true.
Proof.
  induction s as [|c s IH]; simpl; [done|].
  destruct (JsString.is_white_space c); simpl; [done | split; discriminate].
Qed.

Lemma trimEnd_empty (s : string) :
  JsString.trimEnd s = "" <-> JsString.whitespace_only s = true.
Proof.
  induction s as [|c s IH]; simpl; [done|].
  destruct (JsString.trimEnd s) eqn:Ht.
  - destruct (JsString.is_white_space c); simpl; [tauto | split; discriminate].
  - rewrite andb_true_iff, <- IH. split; [discriminate | intros [_ ?]; discriminate].
Qed.

Lemma trimStart_whitespace_only (s : string) :
  JsString.whitespace_only (JsString.trimStart s) = true ->
  JsString.whitespace_only s = true.
Proof.
  induction s as [|c s IH]; simpl; [done|].
  destruct (JsString.is_white_space c) eqn:Hc; simpl; [done|]. by rewrite Hc.
Qed.

(** [command.trim() === ''] says that the command is empty or
    whitespace-only. *)
Lemma trim_empty (s : string) :
  JsString.trim s = "" <-> JsString.whitespace_only s = true.
Proof.
  unfold JsString.trim. rewrite trimEnd_empty. split.
  - apply trimStart_whitespace_only.
  - intros Hs. by rewrite (proj2 (trimStart_empty s) Hs).
Qed.

Lemma is_empty_command_false (command : string) :
  is_empty_command command = false <-> JsString.whitespace_only command = false.
Proof.
  rewrite <- !not_true_iff_false, is_empty_command_spec, trim_empty. tauto.
Qed.

Lemma blockedCommands_saveConfig (wr : WriteOutcome) (cm : CommandManager) :
  blockedCommands (saveConfig wr cm) = blockedCommands cm.
Proof. by destruct wr. Qed.

Lemma blockedCommands_newCommandManager (wr : WriteOutcome) (file : ConfigFile) :
  blockedCommands (newCommandManager wr file) =
  match file with
  | FileConfig cmds => JsSet.add_all cmds (JsSet.of_array DEFAULT_BLOCKED_COMMANDS)
  | _ => JsSet.of_array DEFAULT_BLOCKED_COMMANDS
  end.
Proof.
  unfold newCommandManager, loadConfig. simpl.
  destruct file; simpl; try done. apply blockedCommands_saveConfig.
Qed.

(** C7, as amended. [blockCommand] on an empty or whitespace-only pattern
    returns the error text and changes neither the set nor the file. On any
    other pattern it adds the pattern with its surrounding white space
    removed: the set is unchanged when that trimmed pattern is already in it,
    a second identical call changes nothing more, and when the write succeeds
    the file holds the new set. *)
Theorem blockCommand_inserts_trimmed (command : string) (wr : WriteOutcome)
    (cm : CommandManager) :
  let r := blockCommand command wr cm in
  let trimmed := JsString.trim command in
  (JsString.whitespace_only command = true ->
     r = ("Error: Cannot block empty command", cm)) /\
  (JsString.whitespace_only command = false ->
     r.1 = "Successfully blocked command: " +:+ trimmed /\
     blockedCommands r.2 = JsSet.add trimmed (blockedCommands cm) /\
     (forall p, p ∈ blockedCommands r.2 <-> p = trimmed \/ p ∈ blockedCommands cm) /\
     (trimmed ∈ blockedCommands cm ->
        blockedCommands r.2 = blockedCommands cm /\
        length (blockedCommands r.2) = length (blockedCommands cm)) /\
     (forall wr', blockedCommands (blockCommand command wr' r.2).2 = blockedCommands r.2) /\
     (wr = WriteOk -> configFile r.2 = FileConfig (blockedCommands r.2))).
Proof.
  cbv zeta. unfold blockCommand. split.
  - intros Hws. by rewrite (proj2 (is_empty_command_spec command) (proj2 (trim_empty command) Hws)).
  - intros Hws. rewrite (proj2 (is_empty_command_false command) Hws). simpl.
    rewrite !blockedCommands_saveConfig. simpl. repeat split.
    + by apply elem_of_add.
    + by apply elem_of_add.
    + by apply add_present.
    + by rewrite add_present.
    + intros wr'. rewrite blockedCommands_saveConfig. simpl. apply add_idempotent.
    + by intros ->.
Qed.

(** C8, as amended. [unblockCommand] on an empty or whitespace-only pattern
    returns the error text. Otherwise it looks up the pattern with its
    surrounding white space removed: when that trimmed pattern is not in the
    set, it returns the not-found text and changes nothing; when it is, it
    removes it, and when the write succeeds the file holds the new set. *)
Theorem unblockCommand_removes_trimmed (command : string) (wr : WriteOutcome)
    (cm : CommandManager) :
  let r := unblockCommand command wr cm in
  let trimmed := JsString.trim command in
  (JsString.whitespace_only command = true ->
     r = ("Error: Cannot unblock empty command", cm)) /\
  (JsString.whitespace_only command = false -> trimmed ∉ blockedCommands cm ->
     r = ("Command not found in blocklist: " +:+ trimmed, cm)) /\
  (JsString.whitespace_only command = false -> trimmed ∈ blockedCommands cm ->
     r.1 = "Successfully unblocked command: " +:+ trimmed /\
     blockedCommands r.2 = JsSet.delete trimmed (blockedCommands cm) /\
     (forall p, p ∈ blockedCommands r.2 <-> p ∈ blockedCommands cm /\ p ≠ trimmed) /\
     (wr = WriteOk -> configFile r.2 = FileConfig (blockedCommands r.2))).
Proof.
  cbv zeta. unfold unblockCommand. split; [|split].
  - intros Hws. by rewrite (proj2 (is_empty_command_spec command) (proj2 (trim_empty command) Hws)).
  - intros Hws Hin. rewrite (proj2 (is_empty_command_false command) Hws).
    by rewrite (proj2 (has_false _ _) Hin).
  - intros Hws Hin. rewrite (proj2 (is_empty_command_false command) Hws).
    rewrite (proj2 (has_true _ _) Hin). simpl. rewrite blockedCommands_saveConfig. simpl.
    split; [done|]. split; [done|]. split; [intros p; apply elem_of_delete|].
    by intros ->.
Qed.

(** C9. Whatever the configuration file holds at start-up, every built-in
    pattern is in the set and blocks the commands that contain it; a pattern
    of the set is built in or listed in the file; with a configuration in the
    file the set is the built-in patterns followed by the listed ones. So a
    built-in pattern that was unblocked, and is missing from the file written
    then, is blocked again after the restart. *)
Theorem startup_keeps_default_patterns (wr : WriteOutcome) (file : ConfigFile) :
  let cm := newCommandManager wr file in
  (forall p, p ∈ DEFAULT_BLOCKED_COMMANDS -> p ∈ blockedCommands cm) /\
  (forall p command, p ∈ DEFAULT_BLOCKED_COMMANDS ->
     JsString.substring_of (JsString.toLowerCase p) (JsString.toLowerCase command) ->
     isCommandBlocked command cm = true) /\
  (forall p, p ∈ blockedCommands cm ->
     p ∈ DEFAULT_BLOCKED_COMMANDS \/ exists cmds, file = FileConfig cmds /\ p ∈ cmds) /\
  (forall cmds, file = FileConfig cmds ->
     blockedCommands cm = JsSet.add_all cmds DEFAULT_BLOCKED_COMMANDS /\
     forall p, p ∈ blockedCommands cm <-> p ∈ DEFAULT_BLOCKED_COMMANDS \/ p ∈ cmds) /\
  (forall p pattern wr0 wr1 cm0, p ∈ DEFAULT_BLOCKED_COMMANDS ->
     let stopped := (unblockCommand pattern wr0 cm0).2 in
     p ∈ blockedCommands (newCommandManager wr1 (configFile stopped))).
Proof.
  assert (Hdefault : forall wr' file' p, p ∈ DEFAULT_BLOCKED_COMMANDS ->
            p ∈ blockedCommands (newCommandManager wr' file')).
  { intros wr' file' p Hp. rewrite blockedCommands_newCommandManager.
    destruct file'; rewrite ?elem_of_add_all, ?elem_of_of_array; auto. }
  simpl. split; [by apply Hdefault|]. split; [|split; [|split]].
  - intros p command Hp Hsub. apply isCommandBlocked_spec. exists p. split; [|done].
    by apply Hdefault.
  - intros p. rewrite blockedCommands_newCommandManager.
    destruct file; rewrite ?elem_of_add_all, ?elem_of_of_array; auto.
    intros [?|?]; [by left | right; eauto].
  - intros cmds ->. rewrite blockedCommands_newCommandManager. split; [done|].
    intros p. by rewrite elem_of_add_all, elem_of_of_array.
  - intros p pattern wr0 wr1 cm0 Hp. by apply Hdefault.
Qed.

(** Instances of the three theorems on the gate as the server first builds
    it, with no configuration file yet. *)
Lemma blockCommand_inserts_trimmed_witness :
  let cm := newCommandManager WriteOk FileAbsent in
  blockCommand "   " WriteOk cm = ("Error: Cannot block empty command", cm) /\
  blockedCommands (blockCommand " sudo " WriteOk cm).2 = blockedCommands cm /\
  configFile (blockCommand "ls" WriteOk cm).2 =
    FileConfig (blockedCommands (blockCommand "ls" WriteOk cm).2).
Proof.
  cbv zeta. split; [|split].
  - apply (blockCommand_inserts_trimmed "   " WriteOk). reflexivity.
  - apply (blockCommand_inserts_trimmed " sudo " WriteOk); [reflexivity|].
    vm_compute. repeat constructor.
  - apply (blockCommand_inserts_trimmed "ls" WriteOk); reflexivity.
Defined.

Lemma unblockCommand_removes_trimmed_witness :
  let cm := newCommandManager WriteOk FileAbsent in
  unblockCommand "   " WriteOk cm = ("Error: Cannot unblock empty command", cm) /\
  unblockCommand "ls" WriteOk cm = ("Command not found in blocklist: ls", cm) /\
  blockedCommands (unblockCommand "sudo" WriteOk cm).2 =
    JsSet.delete "sudo" (blockedCommands cm).
Proof.
  cbv zeta. split; [|split].
  - apply (unblockCommand_removes_trimmed "   " WriteOk). reflexivity.
  - apply (unblockCommand_removes_trimmed "ls" WriteOk); [reflexivity|].
    apply (proj1 (has_false "ls" DEFAULT_BLOCKED_COMMANDS)). reflexivity.
  - apply (unblockCommand_removes_trimmed "sudo" WriteOk); [reflexivity|].
    vm_compute. repeat constructor.
Defined.

Lemma startup_keeps_default_patterns_witness :
  "sudo" ∈ blockedCommands (newCommandManager WriteOk (FileConfig ["curl"])) /\
  isCommandBlocked "SUDO reboot" (newCommandManager WriteOk (FileConfig ["curl"])) = true /\
  "sudo" ∈ blockedCommands
    (newCommandManager WriteOk
       (configFile (unblockCommand "sudo" WriteOk (newCommandManager WriteOk FileAbsent)).2)).
Proof.
  split; [|split].
  - apply (startup_keeps_default_patterns WriteOk (FileConfig ["curl"])).
    vm_compute. repeat constructor.
  - apply (startup_keeps_default_patterns WriteOk (FileConfig ["curl"]) ) with (p := "sudo").
    + vm_compute. repeat constructor.
    + exists "", " reboot". reflexivity.
  - apply (startup_keeps_default_patterns WriteOk FileAbsent).
    vm_compute. repeat constructor.
Defined.

(** C7, as stated, fails on a pattern that is in the set with its
    surrounding white space (as a configuration file can list it): the call
    adds the trimmed pattern, and the set grows. *)
Lemma blockCommand_present_pattern_grows :
  let cm := newCommandManager WriteOk (FileConfig [" x "]) in
  let cm' := (blockCommand " x " WriteOk cm).2 in
  JsString.whitespace_only " x " = false /\
  " x " ∈ blockedCommands cm /\
  blockedCommands cm' = (blockedCommands cm ++ ["x"])%list /\
  length (blockedCommands cm) = 7%nat /\
  length (blockedCommands cm') = 8%nat.
Proof.
  cbv zeta. split; [reflexivity|]. split; [|split; [|split]]; try reflexivity.
  vm_compute. repeat constructor.
Qed.

(** C8, as stated, fails on a pattern that is not in the set while its
    trimmed form is: the call does not answer not-found, it removes the
    trimmed pattern. *)
Lemma unblockCommand_absent_pattern_removes :
  let cm := newCommandManager WriteOk FileAbsent in
  let r := unblockCommand " sudo " WriteOk cm in
  (" sudo " ∉ blockedCommands cm) /\
  r.1 = "Successfully unblocked command: sudo" /\
  blockedCommands cm = ["format"; "del /q"; "rm -rf"; "sudo"; "chmod 777"; "mkfs"] /\
  blockedCommands r.2 = ["format"; "del /q"; "rm -rf"; "chmod 777"; "mkfs"].
Proof.
  cbv zeta. split; [|split; [|split]]; try reflexivity.
  apply (proj1 (has_false " sudo " DEFAULT_BLOCKED_COMMANDS)). reflexivity.
Qed.

(** * Further properties of the gate *)

Lemma append_assoc (a b c : string) : (a +:+ b) +:+ c = a +:+ (b +:+ c).
Proof. induction a as [|x a IH]; [done|]. by rewrite !append_cons, IH. Qed.

Lemma toLowerCase_append (a b : string) :
  JsString.toLowerCase (a +:+ b) = JsString.toLowerCase a +:+ JsString.toLowerCase b.
Proof. induction a as [|x a IH]; [done|]. rewrite append_cons. simpl. by rewrite IH. Qed.

Lemma substring_of_embed (p s a b : string) :
  JsString.substring_of p s -> JsString.substring_of p (a +:+ s +:+ b).
Proof.
  intros (u & v & ->). exists (a +:+ u), (v +:+ b). by rewrite !append_assoc.
Qed.

Lemma substring_of_empty (s : string) : JsString.substring_of "" s.
Proof. by exists "", s. Qed.

Lemma NoDup_add (x : string) (s : list string) : NoDup s -> NoDup (JsSet.add x s).
Proof.
  intros Hs. unfold JsSet.add. destruct (JsSet.has x s) eqn:Hx; [done|].
  apply has_false in Hx. apply NoDup_app. split; [done|]. split; [|apply NoDup_singleton].
  intros y Hy ->%list_elem_of_singleton. done.
Qed.

Lemma NoDup_add_all (cmds s : list string) : NoDup s -> NoDup (JsSet.add_all cmds s).
Proof.
  unfold JsSet.add_all. revert s. induction cmds as [|c cmds IH]; intros s Hs; simpl; [done|].
  by apply IH, NoDup_add.
Qed.

Lemma NoDup_delete (x : string) (s : list string) : NoDup s -> NoDup (JsSet.delete x s).
Proof. apply NoDup_filter. Qed.

Lemma delete_absent (x : string) (s : list string) : x ∉ s -> JsSet.delete x s = s.
Proof.
  unfold JsSet.delete. induction s as [|y s IH]; intros Hx; [done|].
  apply not_elem_of_cons in Hx as [Hne Hx].
  rewrite filter_cons_True by done. by rewrite IH.
Qed.

Lemma delete_added (x : string) (s : list string) :
  x ∉ s -> JsSet.delete x (JsSet.add x s) = s.
Proof.
  intros Hx. rewrite add_absent by done. unfold JsSet.delete.
  rewrite filter_app, filter_cons_False, filter_nil, app_nil_r by (intros H; by apply H).
  by apply delete_absent.
Qed.

Lemma NoDup_newCommandManager (wr : WriteOutcome) (file : ConfigFile) :
  NoDup (blockedCommands (newCommandManager wr file)).
Proof.
  rewrite blockedCommands_newCommandManager.
  unfold JsSet.of_array. destruct file; repeat apply NoDup_add_all; apply NoDup_nil_2.
Qed.

Lemma NoDup_blockCommand command wr cm :
  NoDup (blockedCommands cm) -> NoDup (blockedCommands (blockCommand command wr cm).2).
Proof.
  intros Hs. unfold blockCommand. destruct (is_empty_command command); [done|].
  simpl. rewrite blockedCommands_saveConfig. by apply NoDup_add.
Qed.

Lemma NoDup_unblockCommand command wr cm :
  NoDup (blockedCommands cm) -> NoDup (blockedCommands (unblockCommand command wr cm).2).
Proof.
  intros Hs. unfold unblockCommand. destruct (is_empty_command command); [done|].
  destruct (JsSet.has _ _); [|done].
  simpl. rewrite blockedCommands_saveConfig. by apply NoDup_delete.
Qed.

(** *** White space *)

Lemma trimStart_no_leading_space (s : string) : no_leading_space (JsString.trimStart s).
Proof.
  induction s as [|c s IH]; simpl; [done|].
  by destruct (JsString.is_white_space c) eqn:Hc.
Qed.

Lemma trimStart_fixed (s : string) : no_leading_space s -> JsString.trimStart s = s.
Proof. destruct s as [|c s]; simpl; [done|]. by intros ->. Qed.

Lemma trimEnd_no_leading_space (s : string) :
  no_leading_space s -> no_leading_space (JsString.trimEnd s).
Proof.
  destruct s as [|c s]; simpl; [done|]. intros Hc.
  destruct (JsString.trimEnd s); [by rewrite Hc | done].
Qed.

Lemma trimEnd_idempotent (s : string) :
  JsString.trimEnd (JsString.trimEnd s) = JsString.trimEnd s.
Proof.
  induction s as [|c s IH]; simpl; [done|].
  destruct (JsString.trimEnd s) as [|d t] eqn:Ht.
  - destruct (JsString.is_white_space c) eqn:Hc; simpl; [done|]. by rewrite Hc.
  - simpl. simpl in IH. by rewrite IH.
Qed.

(** [trim] returns a string that [trim] leaves as it is. *)
Lemma trim_idempotent (s : string) : JsString.trim (JsString.trim s) = JsString.trim s.
Proof.
  unfold JsString.trim.
  rewrite (trimStart_fixed (JsString.trimEnd _)).
  - apply trimEnd_idempotent.
  - apply trimEnd_no_leading_space, trimStart_no_leading_space.
Qed.

Lemma trimEnd_whitespace_only (s : string) :
  JsString.whitespace_only (JsString.trimEnd s) = true -> JsString.whitespace_only s = true.
Proof.
  intros H. apply trimEnd_empty. rewrite <- trimEnd_idempotent. by apply trimEnd_empty.
Qed.

Lemma trim_not_blank (s : string) :
  JsString.whitespace_only s = false -> JsString.whitespace_only (JsString.trim s) = false.
Proof.
  intros Hs. apply not_true_iff_false. intros Ht. apply not_true_iff_false in Hs.
  apply Hs. unfold JsString.trim in Ht.
  by apply trimStart_whitespace_only, trimEnd_whitespace_only.
Qed.

(** *** The set after a call *)

Lemma blockedCommands_blockCommand (command : string) (wr : WriteOutcome)
    (cm : CommandManager) :
  blockedCommands (blockCommand command wr cm).2 =
  if JsString.whitespace_only command then blockedCommands cm
  else JsSet.add (JsString.trim command) (blockedCommands cm).
Proof.
  unfold blockCommand. destruct (JsString.whitespace_only command) eqn:Hws.
  - by rewrite (proj2 (is_empty_command_spec command) (proj2 (trim_empty command) Hws)).
  - rewrite (proj2 (is_empty_command_false command) Hws). simpl.
    apply blockedCommands_saveConfig.
Qed.

Lemma blockedCommands_unblockCommand (command : string) (wr : WriteOutcome)
    (cm : CommandManager) :
  blockedCommands (unblockCommand command wr cm).2 =
  if JsString.whitespace_only command then blockedCommands cm
  else JsSet.delete (JsString.trim command) (blockedCommands cm).
Proof.
  unfold unblockCommand. destruct (JsString.whitespace_only command) eqn:Hws.
  - by rewrite (proj2 (is_empty_command_spec command) (proj2 (trim_empty command) Hws)).
  - rewrite (proj2 (is_empty_command_false command) Hws).
    destruct (JsSet.has _ _) eqn:Hhas; simpl.
    + apply blockedCommands_saveConfig.
    + symmetry. apply delete_absent. by apply has_false.
Qed.

(** *** The order of the listing *)

Lemma ascii_compare_lt_trans (x y z : Ascii.ascii) :
  Ascii.compare x y = Lt -> Ascii.compare y z = Lt -> Ascii.compare x z = Lt.
Proof. unfold Ascii.compare. rewrite !N.compare_lt_iff. lia. Qed.

#[local] Instance code_unit_le_transitive : Transitive code_unit_le.
Proof.
  intros a. unfold code_unit_le, String.leb.
  induction a as [|x a IH]; intros [|y b] [|z c]; simpl; try done.
  destruct (Ascii.compare x y) eqn:Exy; try done.
  - apply Ascii.compare_eq_iff in Exy as ->.
    destruct (Ascii.compare y z) eqn:Eyz; try done. apply IH.
  - destruct (Ascii.compare y z) eqn:Eyz; try done.
    + apply Ascii.compare_eq_iff in Eyz as ->. by rewrite Exy.
    + by rewrite (ascii_compare_lt_trans x y z).
Qed.

#[local] Instance code_unit_le_total : Total code_unit_le.
Proof. intros a b. apply String.leb_total. Qed.

#[local] Instance code_unit_le_antisym : AntiSymm eq code_unit_le.
Proof. intros a b. apply String.leb_antisym. Qed.

(** [listBlockedCommands] returns the patterns of the set, each as often as
    the set holds it, in ascending code-unit order; two sets with the same
    patterns, inserted in whatever order, give the same listing. *)
Theorem listBlockedCommands_sorted (cm cm' : CommandManager) :
  StronglySorted code_unit_le (listBlockedCommands cm) /\
  listBlockedCommands cm ≡ₚ blockedCommands cm /\
  (forall p, p ∈ listBlockedCommands cm <-> p ∈ blockedCommands cm) /\
  length (listBlockedCommands cm) = length (blockedCommands cm) /\
  (blockedCommands cm ≡ₚ blockedCommands cm' ->
     listBlockedCommands cm = listBlockedCommands cm').
Proof.
  unfold listBlockedCommands.
  pose proof (merge_sort_Permutation code_unit_le (blockedCommands cm)) as Hperm.
  split; [apply (StronglySorted_merge_sort _)|]. split; [done|].
  split; [intros p; by rewrite Hperm|]. split; [by rewrite Hperm|].
  intros Hsame. apply (StronglySorted_unique code_unit_le).
  - apply (StronglySorted_merge_sort _).
  - apply (StronglySorted_merge_sort _).
  - by rewrite !merge_sort_Permutation.
Qed.

Lemma listBlockedCommands_sorted_witness :
  listBlockedCommands (mkCommandManager ["sudo"; "curl"; "mkfs"] FileAbsent) =
  listBlockedCommands (mkCommandManager ["curl"; "sudo"; "mkfs"] FileAbsent).
Proof.
  apply (listBlockedCommands_sorted (mkCommandManager ["sudo"; "curl"; "mkfs"] FileAbsent)).
  simpl. apply perm_swap.
Defined.

(** *** Blocking and unblocking *)

(** Blocking a pattern that is not yet in the set and unblocking it again
    restores the set, order included. *)
Theorem block_then_unblock_restores (command : string) (wr wr' : WriteOutcome)
    (cm : CommandManager) :
  JsString.whitespace_only command = false ->
  JsString.trim command ∉ blockedCommands cm ->
  let r := unblockCommand command wr' (blockCommand command wr cm).2 in
  r.1 = "Successfully unblocked command: " +:+ JsString.trim command /\
  blockedCommands r.2 = blockedCommands cm.
Proof.
  intros Hws Hnew. cbv zeta. unfold blockCommand, unblockCommand.
  rewrite (proj2 (is_empty_command_false command) Hws). simpl.
  rewrite blockedCommands_saveConfig. simpl.
  rewrite (proj2 (has_true _ _)) by (apply elem_of_add; by left). simpl.
  rewrite blockedCommands_saveConfig. simpl. split; [done|]. by apply delete_added.
Qed.

Lemma block_then_unblock_restores_witness :
  let cm := newCommandManager WriteOk FileAbsent in
  blockedCommands (unblockCommand " curl " WriteOk (blockCommand " curl " WriteOk cm).2).2 =
  blockedCommands cm.
Proof.
  cbv zeta. apply (block_then_unblock_restores " curl " WriteOk WriteOk); [reflexivity|].
  apply (proj1 (has_false "curl" DEFAULT_BLOCKED_COMMANDS)). reflexivity.
Defined.

(** After [blockCommand] on a pattern that is not blank, every command that
    was blocked is still blocked, and so is every command that contains the
    trimmed pattern in whatever letter case. *)
Theorem blockCommand_blocks_more (pattern command : string) (wr : WriteOutcome)
    (cm : CommandManager) :
  JsString.whitespace_only pattern = false ->
  let cm' := (blockCommand pattern wr cm).2 in
  (isCommandBlocked command cm = true -> isCommandBlocked command cm' = true) /\
  (JsString.substring_of (JsString.toLowerCase (JsString.trim pattern))
     (JsString.toLowerCase command) ->
   isCommandBlocked command cm' = true).
Proof.
  intros Hws. cbv zeta. rewrite !isCommandBlocked_spec.
  rewrite blockedCommands_blockCommand, Hws. split.
  - intros (p & Hp & Hsub). exists p. split; [|done]. apply elem_of_add. by right.
  - intros Hsub. exists (JsString.trim pattern). split; [|done]. apply elem_of_add. by left.
Qed.

Lemma blockCommand_blocks_more_witness :
  let cm := (blockCommand " Curl " WriteOk (newCommandManager WriteOk FileAbsent)).2 in
  isCommandBlocked "sudo ls" cm = true /\ isCommandBlocked "/usr/bin/CURL -O x" cm = true.
Proof.
  cbv zeta. split.
  - destruct (blockCommand_blocks_more " Curl " "sudo ls" WriteOk
                (newCommandManager WriteOk FileAbsent) eq_refl) as [Hstill _].
    apply Hstill. reflexivity.
  - destruct (blockCommand_blocks_more " Curl " "/usr/bin/CURL -O x" WriteOk
                (newCommandManager WriteOk FileAbsent) eq_refl) as [_ Hnew].
    apply Hnew. exists "/usr/bin/", " -o x". reflexivity.
Defined.

(** [unblockCommand] never blocks a command that was allowed; and when it
    removes a pattern, a command that is still blocked contains another
    pattern of the set. *)
Theorem unblockCommand_blocks_less (pattern command : string) (wr : WriteOutcome)
    (cm : CommandManager) :
  let cm' := (unblockCommand pattern wr cm).2 in
  isCommandBlocked command cm' = true ->
  isCommandBlocked command cm = true /\
  (JsString.whitespace_only pattern = false ->
   exists p, p ∈ blockedCommands cm /\ p ≠ JsString.trim pattern /\
     JsString.substring_of (JsString.toLowerCase p) (JsString.toLowerCase command)).
Proof.
  cbv zeta. rewrite !isCommandBlocked_spec, blockedCommands_unblockCommand.
  intros (p & Hp & Hsub). destruct (JsString.whitespace_only pattern).
  - split; [by exists p | done].
  - apply elem_of_delete in Hp as [Hp Hne]. split; [by exists p|].
    intros _. by exists p.
Qed.

Lemma unblockCommand_blocks_less_witness :
  isCommandBlocked "sudo rm -rf /" (newCommandManager WriteOk FileAbsent) = true.
Proof.
  apply (unblockCommand_blocks_less "sudo" "sudo rm -rf /" WriteOk
           (newCommandManager WriteOk FileAbsent)).
  reflexivity.
Defined.

(** On strings of code units below 256 (Latin-1 text, the strings of this
    development, on which lower-casing acts code unit by code unit), a
    blocked command stays blocked when its letters change case and when it
    is embedded in a longer command line. *)
Theorem isCommandBlocked_embedded (command command' before after : string)
    (cm : CommandManager) :
  isCommandBlocked command cm = true ->
  JsString.toLowerCase command' = JsString.toLowerCase command ->
  isCommandBlocked (before +:+ command' +:+ after) cm = true.
Proof.
  rewrite !isCommandBlocked_spec. intros (p & Hp & Hsub) Hcase.
  exists p. split; [done|]. rewrite !toLowerCase_append, Hcase.
  by apply substring_of_embed.
Qed.

Lemma isCommandBlocked_embedded_witness :
  isCommandBlocked ("cd /tmp && " +:+ "SUDO reboot" +:+ " ; true")
    (newCommandManager WriteOk FileAbsent) = true.
Proof.
  apply (isCommandBlocked_embedded "sudo reboot"); reflexivity.
Defined.

(** The empty pattern is contained in every command: a configuration file
    that lists it makes the gate block every command. *)
Theorem empty_pattern_blocks_everything (wr : WriteOutcome) (cmds : list string)
    (command : string) :
  "" ∈ cmds -> isCommandBlocked command (newCommandManager wr (FileConfig cmds)) = true.
Proof.
  intros Hin. apply isCommandBlocked_spec. exists "". split.
  - rewrite blockedCommands_newCommandManager. apply elem_of_add_all. by right.
  - apply substring_of_empty.
Qed.

Lemma empty_pattern_blocks_everything_witness :
  isCommandBlocked "ls" (newCommandManager WriteOk (FileConfig ["curl"; ""])) = true.
Proof.
  apply (empty_pattern_blocks_everything WriteOk ["curl"; ""] "ls").
  vm_compute. repeat constructor.
Defined.

(** Whatever [blockCommand] adds to the set is not blank and carries no
    white space at either end, so [trim] leaves it as it is. *)
Theorem blockCommand_adds_trimmed_only (command p : string) (wr : WriteOutcome)
    (cm : CommandManager) :
  p ∈ blockedCommands (blockCommand command wr cm).2 ->
  p ∈ blockedCommands cm \/
  (p = JsString.trim command /\ JsString.whitespace_only p = false /\ JsString.trim p = p).
Proof.
  rewrite blockedCommands_blockCommand.
  destruct (JsString.whitespace_only command) eqn:Hws; [by left|].
  intros [-> | Hp]%elem_of_add; [right | by left].
  split; [done|]. split; [by apply trim_not_blank | apply trim_idempotent].
Qed.

Lemma blockCommand_adds_trimmed_only_witness :
  "curl" ∈ DEFAULT_BLOCKED_COMMANDS \/
  ("curl" = JsString.trim "  curl " /\ JsString.whitespace_only "curl" = false /\
   JsString.trim "curl" = "curl").
Proof.
  apply (blockCommand_adds_trimmed_only "  curl " "curl" WriteOk
           (newCommandManager WriteOk FileAbsent)).
  vm_compute. repeat constructor.
Defined.

(** *** The configuration file *)

(** Start-up writes the configuration file only when there is none: it then
    holds the built-in patterns. A file that exists, readable or not, is
    left as it is. *)
Theorem startup_writes_only_missing_file (wr : WriteOutcome) (file : ConfigFile) :
  (file <> FileAbsent -> configFile (newCommandManager wr file) = file) /\
  (file = FileAbsent -> wr = WriteOk ->
     configFile (newCommandManager wr file) = FileConfig DEFAULT_BLOCKED_COMMANDS).
Proof.
  unfold newCommandManager, loadConfig. simpl. split.
  - by destruct file.
  - by intros -> ->.
Qed.

Lemma startup_writes_only_missing_file_witness :
  configFile (newCommandManager WriteOk FileMalformed) = FileMalformed /\
  configFile (newCommandManager WriteOk FileAbsent) = FileConfig DEFAULT_BLOCKED_COMMANDS.
Proof.
  split.
  - by apply (startup_writes_only_missing_file WriteOk FileMalformed).
  - by apply (startup_writes_only_missing_file WriteOk FileAbsent).
Defined.

(** When the write succeeds, a restart on the file left by [blockCommand] or
    [unblockCommand] gives the patterns of the set at that time together
    with the built-in ones; so a pattern that is not built in stays
    unblocked after the restart. *)
Theorem restart_keeps_persisted_patterns (command : string) (wr : WriteOutcome)
    (cm : CommandManager) :
  JsString.whitespace_only command = false ->
  let blocked := (blockCommand command WriteOk cm).2 in
  let unblocked := (unblockCommand command WriteOk cm).2 in
  (forall p, p ∈ blockedCommands (newCommandManager wr (configFile blocked)) <->
     p ∈ DEFAULT_BLOCKED_COMMANDS \/ p ∈ blockedCommands blocked) /\
  (JsString.trim command ∈ blockedCommands cm ->
   (forall p, p ∈ blockedCommands (newCommandManager wr (configFile unblocked)) <->
      p ∈ DEFAULT_BLOCKED_COMMANDS \/ p ∈ blockedCommands unblocked) /\
   (JsString.trim command ∉ DEFAULT_BLOCKED_COMMANDS ->
    JsString.trim command ∉ blockedCommands (newCommandManager wr (configFile unblocked)))).
Proof.
  intros Hws. cbv zeta.
  assert (Hrestart : forall s p,
    p ∈ blockedCommands (newCommandManager wr (FileConfig s)) <->
    p ∈ DEFAULT_BLOCKED_COMMANDS \/ p ∈ s).
  { intros s p. by rewrite blockedCommands_newCommandManager, elem_of_add_all,
      elem_of_of_array. }
  assert (Hblocked : configFile (blockCommand command WriteOk cm).2 =
                     FileConfig (blockedCommands (blockCommand command WriteOk cm).2)).
  { unfold blockCommand. by rewrite (proj2 (is_empty_command_false command) Hws). }
  split.
  - intros p. rewrite Hblocked. apply Hrestart.
  - intros Hin.
    assert (Hunblocked : configFile (unblockCommand command WriteOk cm).2 =
                         FileConfig (blockedCommands (unblockCommand command WriteOk cm).2)).
    { unfold unblockCommand.
      by rewrite (proj2 (is_empty_command_false command) Hws), (proj2 (has_true _ _) Hin). }
    rewrite Hunblocked. split; [intros p; apply Hrestart|].
    intros Hdef [Hp | Hp]%Hrestart; [done|].
    rewrite blockedCommands_unblockCommand, Hws in Hp.
    apply elem_of_delete in Hp as [_ Hne]. done.
Qed.

Lemma restart_keeps_persisted_patterns_witness :
  let cm := (blockCommand "curl" WriteOk (newCommandManager WriteOk FileAbsent)).2 in
  "curl" ∉ blockedCommands
    (newCommandManager WriteOk (configFile (unblockCommand "curl" WriteOk cm).2)).
Proof.
  cbv zeta.
  apply (restart_keeps_persisted_patterns "curl" WriteOk
           (blockCommand "curl" WriteOk (newCommandManager WriteOk FileAbsent)).2).
  - reflexivity.
  - vm_compute. repeat constructor.
  - apply (proj1 (has_false "curl" DEFAULT_BLOCKED_COMMANDS)). reflexivity.
Defined.

(** A failed write is not reported: the text returned and the set kept in
    memory are those of a successful write, and the file is whatever the
    failed write left. *)
Theorem write_failure_is_silent (command : string) (left_behind : ConfigFile)
    (cm : CommandManager) :
  let failed := blockCommand command (WriteThrows left_behind) cm in
  let written := blockCommand command WriteOk cm in
  let failed' := unblockCommand command (WriteThrows left_behind) cm in
  let written' := unblockCommand command WriteOk cm in
  failed.1 = written.1 /\ blockedCommands failed.2 = blockedCommands written.2 /\
  failed'.1 = written'.1 /\ blockedCommands failed'.2 = blockedCommands written'.2 /\
  (JsString.whitespace_only command = false -> configFile failed.2 = left_behind).
Proof.
  cbv zeta. rewrite !blockedCommands_blockCommand, !blockedCommands_unblockCommand.
  unfold blockCommand, unblockCommand.
  destruct (is_empty_command command) eqn:He.
  - repeat split; try done. intros Hws.
    apply is_empty_command_false in Hws. congruence.
  - destruct (JsSet.has _ _); done.
Qed.

Lemma write_failure_is_silent_witness :
  configFile (blockCommand "curl" (WriteThrows FileMalformed)
                (newCommandManager WriteOk FileAbsent)).2 = FileMalformed.
Proof.
  by apply (write_failure_is_silent "curl" FileMalformed
              (newCommandManager WriteOk FileAbsent)).
Defined.

(** ** The session store along a run *)

Section Runs.

Variable DEFAULT_COMMAND_TIMEOUT : Z.

Local Abbreviation step := (step DEFAULT_COMMAND_TIMEOUT).
Local Abbreviation exec := (exec DEFAULT_COMMAND_TIMEOUT).
Local Abbreviation responses := (responses DEFAULT_COMMAND_TIMEOUT).
Local Abbreviation executeCommand := (executeCommand DEFAULT_COMMAND_TIMEOUT).
Local Abbreviation punctual := (punctual DEFAULT_COMMAND_TIMEOUT).

Lemma consistent_boot (wr : WriteOutcome) (file : ConfigFile) :
  consistent (boot wr file).
Proof. by split; simpl; intros; simplify_map_eq. Qed.

Ltac learn H :=
  let T := type of H in
  lazymatch goal with
  | _ : T |- _ => fail
  | _ => pose proof H
  end.

(** Rewrites lookups in updated maps, then adds what the invariant says
    of every remaining lookup. *)
Ltac lookups :=
  repeat match goal with
  | H : <[_:=_]> _ !! _ = Some _ |- _ =>
      apply lookup_insert_Some in H as [[<- <-] | [? H]]
  | H : delete _ _ !! _ = Some _ |- _ =>
      apply lookup_delete_Some in H as [? H]
  end.

Ltac saturate I :=
  repeat match goal with
  | H : sessions _ !! _ = Some _ |- _ =>
      first [ learn (sessions_below _ I _ _ H)
            | learn (active_not_archived _ I _ _ H)
            | learn (active_snapshot _ I _ _ H) ]
  | H : completedSessions _ !! _ = Some _ |- _ => learn (completed_below _ I _ _ H)
  | H : invocations _ !! _ = Some _ |- _ => learn (invocations_below _ I _ _ H)
  end.

Lemma consistent_executeCommand command timeout sp now w :
  consistent w -> consistent (executeCommand command timeout sp now w).2.
Proof.
  intros I. pose proof (next_positive _ I). unfold executeCommand.
  destruct (isCommandBlocked command (commandManager w)); [done|].
  destruct sp as [child|]; split; simpl; intros; lookups; saturate I;
    try lia; try done.
  - destruct (completedSessions (terminalManager w) !! nextPid (terminalManager w))
      as [c|] eqn:Hc'; [|done]. saturate I. lia.
  - split; [done|]. rewrite lookup_insert_eq. eauto.
  - rewrite lookup_insert_ne by done. tauto.
Qed.

(** A callback that only rewrites the closure of [pid] keeps the
    invariant. *)
Lemma consistent_update_invocation w pid inv inv' :
  consistent w -> invocations w !! pid = Some inv ->
  consistent (mkWorld (commandManager w) (terminalManager w)
                (<[pid := inv']> (invocations w))).
Proof.
  intros I Hinv. split; simpl; intros; lookups; saturate I; try lia; try done.
  split; [tauto|]. destruct (decide (pid = pid0)) as [->|Hne].
  - rewrite lookup_insert_eq. eauto.
  - rewrite lookup_insert_ne by done. tauto.
Qed.

Lemma consistent_onData pid chunk w : consistent w -> consistent (onData pid chunk w).
Proof.
  intros I. unfold onData. destruct (invocations w !! pid) eqn:Hinv; [|done].
  by eapply consistent_update_invocation.
Qed.

Lemma consistent_onError pid w : consistent w -> consistent (onError pid w).
Proof.
  intros I. unfold onError. destruct (invocations w !! pid) eqn:Hinv; [|done].
  by eapply consistent_update_invocation.
Qed.

Lemma consistent_onTimeout pid w : consistent w -> consistent (onTimeout pid w).
Proof.
  intros I. unfold onTimeout. destruct (invocations w !! pid) as [inv|] eqn:Hinv; [|done].
  destruct (timer inv); [|done].
  by eapply consistent_update_invocation.
Qed.

(** Moving [pid] from the active to the archived map keeps the
    invariant. *)
Lemma consistent_archive w pid session completed :
  consistent w -> sessions (terminalManager w) !! pid = Some session ->
  consistent (mkWorld (commandManager w)
                (mkTerminalManager (delete pid (sessions (terminalManager w)))
                   (<[pid := completed]> (completedSessions (terminalManager w)))
                   (nextPid (terminalManager w)))
                (invocations w)).
Proof.
  intros I Hs. pose proof (next_positive _ I).
  split; simpl; intros; lookups; saturate I; try lia; try done;
    try tauto; by rewrite lookup_insert_ne.
Qed.

Lemma consistent_onExit pid code now w : consistent w -> consistent (onExit pid code now w).
Proof.
  intros I. unfold onExit. destruct (invocations w !! pid); [|done].
  destruct (sessions (terminalManager w) !! pid) eqn:Hs; [|done].
  by eapply consistent_archive.
Qed.

Lemma consistent_forceTerminate pid sg now w :
  consistent w ->
  consistent (mkWorld (commandManager w)
                (forceTerminate pid sg now (terminalManager w)).2 (invocations w)).
Proof.
  intros I. unfold forceTerminate.
  destruct (sessions (terminalManager w) !! pid) eqn:Hs; [|by destruct w].
  destruct sg; [|by destruct w]. by eapply consistent_archive.
Qed.

Lemma consistent_gate cm w :
  consistent w -> consistent (mkWorld cm (terminalManager w) (invocations w)).
Proof. by intros []. Qed.

Lemma consistent_step now ev w : consistent w -> consistent (step now ev w).2.
Proof.
  intros I. destruct ev; simpl; try done.
  - by apply consistent_executeCommand.
  - by apply consistent_forceTerminate.
  - by apply consistent_gate.
  - by apply consistent_gate.
  - by apply consistent_onData.
  - by apply consistent_onExit.
  - by apply consistent_onError.
  - by apply consistent_onTimeout.
Qed.

Lemma consistent_exec evs w : consistent w -> consistent (exec evs w).
Proof.
  revert w. induction evs as [|[now ev] evs IH]; intros w I; [done|].
  simpl. by apply IH, consistent_step.
Qed.

(** ** The operations *)

Lemma executeCommand_blocked command timeout sp now w :
  isCommandBlocked command (commandManager w) = true ->
  executeCommand command timeout sp now w =
    (Blocked (CommandExecutionResult.mk (-1)
                ("Command blocked for security reasons: " +:+ command) true), w).
Proof. intros Hb. unfold executeCommand. by rewrite Hb. Qed.

Lemma executeCommand_started command timeout child now w :
  isCommandBlocked command (commandManager w) = false ->
  let pid := nextPid (terminalManager w) in
  executeCommand command timeout (SpawnReturns child) now w =
    (Started pid,
     mkWorld (commandManager w)
       (mkTerminalManager
          (<[pid := TerminalSession.mk pid child "" false now]> (sessions (terminalManager w)))
          (completedSessions (terminalManager w)) (pid + 1))
       (<[pid := mkInvocation "" Pending
                   (Some (now + setTimeout_delay
                                  (default DEFAULT_COMMAND_TIMEOUT timeout)))]>
          (invocations w))).
Proof. intros Hb. unfold executeCommand. by rewrite Hb. Qed.

Lemma next_pid_unused w :
  consistent w ->
  sessions (terminalManager w) !! nextPid (terminalManager w) = None /\
  completedSessions (terminalManager w) !! nextPid (terminalManager w) = None /\
  invocations w !! nextPid (terminalManager w) = None.
Proof.
  intros I. repeat split.
  - destruct (sessions _ !! _) eqn:H; [|done]. saturate I. lia.
  - destruct (completedSessions _ !! _) eqn:H; [|done]. saturate I. lia.
  - destruct (invocations _ !! _) eqn:H; [|done]. saturate I. lia.
Qed.

(** C3, as amended. [executeCommand] answers with the blocked result,
    identifier -1, and leaves the whole state as it was (so nothing of this
    call can ever show up in [listSessions]) exactly when the lower-cased
    command contains the lower-cased form of a pattern of the set.
    Otherwise, when [spawn] returns a child, the call takes the next
    identifier and stores an active session under it, which [listSessions]
    then shows; and when [spawn] throws, the call takes the next identifier,
    rejects its promise and stores no session. *)
Theorem executeCommand_blocked_iff command timeout sp now w :
  let r := executeCommand command timeout sp now w in
  let found :=
    exists p, p ∈ blockedCommands (commandManager w) /\
      JsString.substring_of (JsString.toLowerCase p) (JsString.toLowerCase command) in
  ((exists result, r.1 = Blocked result /\
      CommandExecutionResult.isBlocked result = true /\
      CommandExecutionResult.pid result = -1 /\ r.2 = w) <-> found) /\
  (found -> forall t evs,
     listSessions t (terminalManager r.2) = listSessions t (terminalManager w) /\
     exec evs r.2 = exec evs w) /\
  (~ found -> forall child, sp = SpawnReturns child ->
     let pid := nextPid (terminalManager w) in
     r.1 = Started pid /\
     sessions (terminalManager r.2) =
       <[pid := TerminalSession.mk pid child "" false now]> (sessions (terminalManager w)) /\
     ActiveSession.mk pid false 0 ∈ listSessions now (terminalManager r.2) /\
     (consistent w -> sessions (terminalManager w) !! pid = None)) /\
  (~ found -> sp = SpawnThrows ->
     r.1 = SpawnFailed (nextPid (terminalManager w)) /\
     promise_of r.1 r.2 = Rejected /\
     sessions (terminalManager r.2) = sessions (terminalManager w) /\
     completedSessions (terminalManager r.2) = completedSessions (terminalManager w) /\
     nextPid (terminalManager r.2) = nextPid (terminalManager w) + 1 /\
     forall t, listSessions t (terminalManager r.2) = listSessions t (terminalManager w)).
Proof.
  cbv zeta. rewrite <- isCommandBlocked_spec.
  destruct (isCommandBlocked command (commandManager w)) eqn:Hb.
  - rewrite executeCommand_blocked by done. simpl. split; [|split; [|split]].
    + split; [done|]. intros _. eexists. by repeat split.
    + done.
    + done.
    + done.
  - split; [|split; [|split]].
    + split; [|done]. intros (result & Hr & _). unfold executeCommand in Hr.
      rewrite Hb in Hr. by destruct sp.
    + done.
    + intros _ child ->. rewrite executeCommand_started by done. simpl.
      split; [done|]. split; [done|]. split.
      * unfold listSessions. simpl. apply list_elem_of_fmap.
        exists (nextPid (terminalManager w),
                TerminalSession.mk (nextPid (terminalManager w)) child "" false now).
        simpl. rewrite Z.sub_diag. split; [done|].
        apply elem_of_map_to_list, lookup_insert_eq.
      * intros I. by apply next_pid_unused.
    + intros _ ->. unfold executeCommand. rewrite Hb. done.
Qed.

(** C4. [forceTerminate] returns false, and changes nothing, for an
    identifier that is not active, archived or not. For an active one,
    once the signal has been issued, delivered or not, the session is
    moved to the archive with no exit code and the call returns true. *)
Theorem forceTerminate_archives pid sg now tm :
  (sessions tm !! pid = None -> forceTerminate pid sg now tm = (false, tm)) /\
  (forall session delivered,
     sessions tm !! pid = Some session -> sg = SignalReturns delivered ->
     let r := forceTerminate pid sg now tm in
     r.1 = true /\
     sessions r.2 = delete pid (sessions tm) /\
     sessions r.2 !! pid = None /\
     completedSessions r.2 =
       <[pid := CompletedSession.mk pid (TerminalSession.lastOutput session) None
                  (TerminalSession.startTime session) now]> (completedSessions tm) /\
     CompletedSession.exitCode <$> completedSessions r.2 !! pid = Some None /\
     nextPid r.2 = nextPid tm).
Proof.
  unfold forceTerminate. split.
  - by intros ->.
  - intros session delivered -> ->. simpl.
    rewrite lookup_delete_eq, lookup_insert_eq. done.
Qed.

(** ** Identifiers *)

Lemma strictly_increasing_cons (x : Z) (l : list Z) :
  Forall (fun y => x < y) l -> strictly_increasing l -> strictly_increasing (x :: l).
Proof.
  intros Hx Hl i j a b Hij Hi Hj. destruct j as [|j]; [lia|]. simpl in Hj.
  destruct i as [|i]; simpl in Hi.
  - injection Hi as <-. rewrite Forall_forall in Hx. apply Hx.
    by eapply list_elem_of_lookup_2.
  - apply (Hl i j); [lia|done..].
Qed.

Lemma strictly_increasing_NoDup (l : list Z) : strictly_increasing l -> NoDup l.
Proof.
  intros Hl. apply NoDup_alt. intros i j x Hi Hj.
  destruct (Nat.lt_total i j) as [Hlt | [-> | Hlt]]; [|done|].
  - pose proof (Hl i j x x Hlt Hi Hj). lia.
  - pose proof (Hl j i x x Hlt Hj Hi). lia.
Qed.

(** A step takes at most one identifier: the current value of the
    counter, which it then increments. *)
Lemma step_nextPid now ev w :
  match allocated_id (step now ev w).1 with
  | Some id =>
      id = nextPid (terminalManager w) /\
      nextPid (terminalManager (step now ev w).2) = id + 1
  | None =>
      nextPid (terminalManager (step now ev w).2) = nextPid (terminalManager w)
  end.
Proof.
  destruct ev; simpl; try done.
  - unfold executeCommand. destruct (isCommandBlocked _ _); [done|]. by destruct sp.
  - unfold forceTerminate. destruct (sessions _ !! _); [|done]. by destruct sg.
  - unfold onData. by destruct (invocations _ !! _).
  - unfold onExit. destruct (invocations _ !! _); [|done].
    by destruct (sessions _ !! _).
  - unfold onError. by destruct (invocations _ !! _).
  - unfold onTimeout. destruct (invocations _ !! _) as [inv|]; [|done].
    by destruct (timer inv).
Qed.

Lemma session_id_allocated (r : Response) (id : Z) :
  session_id r = Some id -> allocated_id r = Some id.
Proof. destruct r as [[]| | | |]; simpl; congruence. Qed.

(** The identifiers taken along a run are the consecutive integers from
    the counter at its start up to the counter at its end. *)
Lemma allocated_ids_run evs w :
  nextPid (terminalManager w) <= nextPid (terminalManager (exec evs w)) /\
  allocated_ids (responses evs w) =
    seqZ (nextPid (terminalManager w))
      (nextPid (terminalManager (exec evs w)) - nextPid (terminalManager w)).
Proof.
  revert w. induction evs as [|[now ev] evs IH]; intros w; simpl.
  - split; [lia|]. by rewrite Z.sub_diag.
  - destruct (IH (step now ev w).2) as [Hle Heq].
    pose proof (step_nextPid now ev w) as Hstep. unfold allocated_ids in *.
    simpl. destruct (allocated_id (step now ev w).1) as [id|].
    + destruct Hstep as [-> Hnext]. rewrite Hnext in Hle, Heq.
      split; [lia|]. rewrite Heq. rewrite (seqZ_cons (nextPid _)) by lia.
      f_equal. f_equal. lia.
    + rewrite Hstep in Hle, Heq. done.
Qed.

Lemma session_ids_sublist (rs : list Response) :
  session_ids rs `sublist_of` allocated_ids rs.
Proof.
  unfold session_ids, allocated_ids. induction rs as [|r rs IH]; simpl; [done|].
  destruct (session_id r) as [id|] eqn:Hs.
  - rewrite (session_id_allocated _ _ Hs). by apply sublist_skip.
  - destruct (allocated_id r); [by apply sublist_cons | done].
Qed.

Lemma session_ids_run evs w :
  Forall (fun id => nextPid (terminalManager w) <= id
                    < nextPid (terminalManager (exec evs w)))
    (session_ids (responses evs w)) /\
  strictly_increasing (session_ids (responses evs w)).
Proof.
  revert w. induction evs as [|[now ev] evs IH]; intros w; simpl.
  - split; [constructor|]. intros i j a b _ Hi. by destruct i.
  - destruct (IH (step now ev w).2) as [Hall Hinc].
    pose proof (step_nextPid now ev w) as Hstep.
    pose proof (allocated_ids_run evs (step now ev w).2) as [Hle _].
    unfold session_ids in *. simpl.
    destruct (session_id (step now ev w).1) as [id|] eqn:Hs.
    + rewrite (session_id_allocated _ _ Hs) in Hstep. destruct Hstep as [-> Hnext].
      rewrite Hnext in Hall, Hle. split.
      * constructor; [lia|]. eapply Forall_impl; [exact Hall|]. simpl. lia.
      * apply strictly_increasing_cons; [|done].
        eapply Forall_impl; [exact Hall|]. simpl. lia.
    + split; [|done]. eapply Forall_impl; [exact Hall|]. simpl.
      destruct (allocated_id (step now ev w).1); lia.
Qed.

(** C5. Along every run of the server from its start, the identifiers
    taken by [executeCommand] are 1, 2, 3, ... in order; those of the
    sessions are among them, so they are strictly increasing from call to
    call, at least 1, and pairwise distinct; and the identifier of a new
    session is neither active, nor archived, nor that of an earlier
    session. *)
Theorem session_ids_strictly_increasing wr file evs :
  let w0 := boot wr file in
  let rs := responses evs w0 in
  nextPid (terminalManager w0) = 1 /\
  allocated_ids rs = seqZ 1 (Z.of_nat (length (allocated_ids rs))) /\
  session_ids rs `sublist_of` allocated_ids rs /\
  strictly_increasing (session_ids rs) /\
  Forall (fun id => 1 <= id) (session_ids rs) /\
  NoDup (session_ids rs) /\
  (forall command timeout sp now id,
     (executeCommand command timeout sp now (exec evs w0)).1 = Started id ->
     sessions (terminalManager (exec evs w0)) !! id = None /\
     completedSessions (terminalManager (exec evs w0)) !! id = None /\
     id ∉ session_ids rs).
Proof.
  cbv zeta.
  destruct (allocated_ids_run evs (boot wr file)) as [Hle Halloc].
  destruct (session_ids_run evs (boot wr file)) as [Hall Hinc].
  change (nextPid (terminalManager (boot wr file))) with 1 in *.
  split; [done|]. split; [|split; [|split; [|split; [|split]]]].
  - rewrite Halloc at 2. rewrite length_seqZ, Z2Nat.id by lia. done.
  - apply session_ids_sublist.
  - done.
  - eapply Forall_impl; [exact Hall|]. simpl. lia.
  - by apply strictly_increasing_NoDup.
  - intros command timeout sp now id Hid.
    assert (id = nextPid (terminalManager (exec evs (boot wr file)))) as ->.
    { unfold executeCommand in Hid. destruct (isCommandBlocked _ _); [done|].
      destruct sp; simpl in Hid; congruence. }
    pose proof (consistent_exec evs _ (consistent_boot wr file)) as I.
    destruct (next_pid_unused _ I) as (? & ? & _). split; [done|]. split; [done|].
    intros Hin. rewrite Forall_forall in Hall. apply Hall in Hin. lia.
Qed.

(** ** Archival *)

(** An archived record stays as it is, and its identifier stays out of
    the active set, whatever happens next. *)
Lemma archived_stable now ev w pid record :
  consistent w ->
  completedSessions (terminalManager w) !! pid = Some record ->
  completedSessions (terminalManager (step now ev w).2) !! pid = Some record /\
  sessions (terminalManager (step now ev w).2) !! pid = None.
Proof.
  intros I Hc.
  assert (Hs : sessions (terminalManager w) !! pid = None).
  { destruct (sessions _ !! _) eqn:H; [|done]. saturate I. congruence. }
  saturate I. destruct ev; simpl; try done.
  - unfold executeCommand. destruct (isCommandBlocked _ _); [done|].
    destruct sp; simpl; [|done]. split; [done|]. rewrite lookup_insert_ne by lia. done.
  - unfold forceTerminate.
    destruct (sessions _ !! pid0) eqn:Hs0; [|done]. destruct sg; [|done]. simpl.
    assert (pid0 <> pid) by congruence.
    by rewrite lookup_insert_ne, lookup_delete_ne.
  - unfold onData. by destruct (invocations _ !! _).
  - unfold onExit. destruct (invocations _ !! _); [|done].
    destruct (sessions _ !! pid0) eqn:Hs0; [|done]. simpl.
    assert (pid0 <> pid) by congruence.
    by rewrite lookup_insert_ne, lookup_delete_ne.
  - unfold onError. by destruct (invocations _ !! _).
  - unfold onTimeout. destruct (invocations _ !! _) as [inv|]; [|done].
    by destruct (timer inv).
Qed.

Lemma onExit_not_active pid code now w :
  sessions (terminalManager w) !! pid = None -> onExit pid code now w = w.
Proof. intros Hs. unfold onExit. rewrite Hs. by destruct (invocations _ !! _). Qed.

(** C6. In every state a run of the server reaches, no identifier is both
    active and archived; an exit notification for an identifier that is
    not active changes nothing, so the record made by an earlier
    [forceTerminate] is kept; and whatever comes next, call or callback,
    an archived record stays as it is and its identifier stays out of the
    active set. *)
Theorem archived_exactly_once wr file evs :
  let w := exec evs (boot wr file) in
  (forall pid, ~ (is_Some (sessions (terminalManager w) !! pid) /\
                  is_Some (completedSessions (terminalManager w) !! pid))) /\
  (forall pid code now,
     sessions (terminalManager w) !! pid = None -> onExit pid code now w = w) /\
  (forall pid sg code now now',
     let w1 := (step now (CallForceTerminate pid sg) w).2 in
     is_Some (completedSessions (terminalManager w1) !! pid) ->
     (step now' (Exit pid code) w1).2 = w1) /\
  (forall pid record now ev,
     completedSessions (terminalManager w) !! pid = Some record ->
     completedSessions (terminalManager (step now ev w).2) !! pid = Some record /\
     sessions (terminalManager (step now ev w).2) !! pid = None).
Proof.
  cbv zeta. pose proof (consistent_exec evs _ (consistent_boot wr file)) as I.
  split; [|split; [|split]].
  - intros pid [[s Hs] [c Hc]]. saturate I. congruence.
  - intros pid code now. apply onExit_not_active.
  - intros pid sg code now now' [record Hc]. simpl. apply onExit_not_active.
    pose proof (consistent_forceTerminate pid sg now _ I) as I'.
    simpl in *. destruct (sessions _ !! pid) eqn:Hs; [|done].
    saturate I'. simpl in *. congruence.
  - intros pid record now ev. by apply archived_stable.
Qed.

(** ** The promise of a call *)

(** What one step does to the closure of [pid]: it keeps the promise (and,
    while the promise is pending, the timer); or an error rejects the
    pending promise; or the callback of the pending timer of [pid] fulfils
    the pending promise with a snapshot of the buffer. *)
Lemma step_promise now ev w pid inv :
  consistent w -> invocations w !! pid = Some inv ->
  exists inv', invocations (step now ev w).2 !! pid = Some inv' /\
    ((promise inv' = promise inv /\ (promise inv = Pending -> timer inv' = timer inv))
     \/ (promise inv = Pending /\ promise inv' = Rejected)
     \/ (promise inv = Pending /\ ev = Timeout pid /\
         exists due, timer inv = Some due /\
           promise inv' = Fulfilled (CommandExecutionResult.mk pid (output inv) false))).
Proof.
  intros I Hinv. saturate I.
  assert (Hkeep : exists inv', invocations w !! pid = Some inv' /\
    ((promise inv' = promise inv /\ (promise inv = Pending -> timer inv' = timer inv))
     \/ (promise inv = Pending /\ promise inv' = Rejected)
     \/ (promise inv = Pending /\ ev = Timeout pid /\
         exists due, timer inv = Some due /\
           promise inv' = Fulfilled (CommandExecutionResult.mk pid (output inv) false)))).
  { exists inv. split; [done|]. by left. }
  destruct ev; simpl; try done.
  - unfold executeCommand. destruct (isCommandBlocked _ _); [done|].
    destruct sp; simpl; [|done]. rewrite lookup_insert_ne by lia. done.
  - unfold onData. destruct (invocations w !! pid0) as [inv0|] eqn:H0; [|done]. simpl.
    destruct (decide (pid0 = pid)) as [->|Hne].
    + rewrite lookup_insert_eq. eexists. split; [done|]. left.
      assert (inv0 = inv) as -> by congruence. done.
    + by rewrite lookup_insert_ne.
  - unfold onExit. destruct (invocations w !! pid0); [|done].
    by destruct (sessions _ !! pid0).
  - unfold onError. destruct (invocations w !! pid0) as [inv0|] eqn:H0; [|done]. simpl.
    destruct (decide (pid0 = pid)) as [->|Hne].
    + rewrite lookup_insert_eq. eexists. split; [done|].
      assert (inv0 = inv) as -> by congruence. simpl.
      destruct (promise inv); simpl; auto.
    + by rewrite lookup_insert_ne.
  - unfold onTimeout. destruct (invocations w !! pid0) as [inv0|] eqn:H0; [|done].
    destruct (timer inv0) as [due|] eqn:Ht; [|done]. simpl.
    destruct (decide (pid0 = pid)) as [->|Hne].
    + rewrite lookup_insert_eq. eexists. split; [done|].
      assert (inv0 = inv) as -> by congruence. simpl.
      destruct (promise inv) eqn:Hp; simpl.
      * right. right. split; [done|]. split; [done|]. by exists due.
      * left. done.
      * left. done.
    + by rewrite lookup_insert_ne.
Qed.

Lemma exec_cons now ev evs w : exec ((now, ev) :: evs) w = exec evs (step now ev w).2.
Proof. reflexivity. Qed.

(** A settled promise is never settled again. *)
Lemma settled_stable evs w pid inv :
  consistent w -> invocations w !! pid = Some inv -> promise inv <> Pending ->
  promise_of (Started pid) (exec evs w) = promise inv.
Proof.
  revert w inv. induction evs as [|[now ev] evs IH]; intros w inv I Hinv Hp; simpl.
  - by rewrite Hinv.
  - destruct (step_promise now ev w pid inv I Hinv) as (inv' & Hinv' & Hcase).
    assert (promise inv' = promise inv) as Heq.
    { destruct Hcase as [[? _] | [[? _] | [? _]]]; [done | congruence..]. }
    rewrite <- Heq. apply IH; [by apply consistent_step | done | congruence].
Qed.

(** While the promise is pending, so is the timer, due at the same time. *)
Lemma pending_timer evs w pid inv due :
  consistent w -> invocations w !! pid = Some inv ->
  (promise inv = Pending -> timer inv = Some due) ->
  exists inv', invocations (exec evs w) !! pid = Some inv' /\
    (promise inv' = Pending -> timer inv' = Some due).
Proof.
  revert w inv. induction evs as [|[now ev] evs IH]; intros w inv I Hinv Ht; simpl.
  - by exists inv.
  - destruct (step_promise now ev w pid inv I Hinv) as (inv' & Hinv' & Hcase).
    apply (IH _ inv'); [by apply consistent_step | done |].
    intros Hp. destruct Hcase as [[Heq Hkeep] | [[_ ?] | (_ & _ & e & _ & ?)]];
      [|congruence..].
    rewrite Hkeep by congruence. apply Ht. congruence.
Qed.

(** A pending promise that a run fulfils is fulfilled by the timer of its
    own call; on a run whose timers are delivered on time, not before that
    timer is due. *)
Lemma fulfilled_by_timer evs w pid inv due result :
  consistent w -> invocations w !! pid = Some inv ->
  promise inv = Pending -> timer inv = Some due ->
  promise_of (Started pid) (exec evs w) = Fulfilled result ->
  exists before t after,
    evs = (before ++ (t, Timeout pid) :: after)%list /\
    promise_of (Started pid) (exec before w) = Pending /\
    promise_of (Started pid) (step t (Timeout pid) (exec before w)).2 = Fulfilled result /\
    (punctual evs w -> due <= t).
Proof.
  revert w inv. induction evs as [|[now ev] evs IH]; intros w inv I Hinv Hp Ht Hres.
  - simpl in Hres. rewrite Hinv in Hres. congruence.
  - rewrite exec_cons in Hres.
    destruct (step_promise now ev w pid inv I Hinv) as (inv' & Hinv' & Hcase).
    pose proof (consistent_step now ev w I) as I'.
    destruct Hcase as [[Heq Hkeep] | [[_ Hrej] | (_ & -> & e & He & Hful)]].
    + destruct (IH _ inv' I' Hinv') as (before & t & after & -> & Hpend & Hfire & Hdue);
        [congruence | rewrite Hkeep by done; done | done |].
      exists ((now, ev) :: before), t, after.
      split; [done|]. split; [done|]. split; [done|].
      intros [_ Hpunctual]. by apply Hdue.
    + rewrite (settled_stable evs _ pid inv' I' Hinv') in Hres by congruence. congruence.
    + rewrite (settled_stable evs _ pid inv' I' Hinv') in Hres by congruence.
      exists [], now, evs. change (exec [] w) with w. unfold promise_of.
      rewrite Hinv, Hinv'.
      split; [done|]. split; [done|]. split; [congruence|].
      intros [Hdue _]. rewrite Hinv, Ht in Hdue. done.
Qed.

Lemma setTimeout_delay_ge (delay : Z) :
  1 <= setTimeout_delay delay /\ (delay <= TIMEOUT_MAX -> delay <= setTimeout_delay delay).
Proof.
  unfold setTimeout_delay, TIMEOUT_MAX.
  destruct (Z.leb_spec 1 delay), (Z.leb_spec delay 2147483647); simpl; lia.
Qed.

(** C10, as amended. A call that was not blocked and whose [spawn] returned
    leaves its promise pending. Along every later run the promise is
    fulfilled only by the callback of the timer of that call: an exit of the
    child, however early, leaves the promise pending, and the callback, when
    it runs on the pending promise, fulfils it with the identifier and the
    buffer of that moment. On a run whose timers are delivered on time, the
    callback runs no earlier than the start time plus the delay that the
    timer applies to the requested timeout (the default one when none was
    given): that is the requested timeout or more when it is at most
    [TIMEOUT_MAX] milliseconds. *)
Theorem execute_resolves_only_at_timeout command timeout sp now w pid :
  consistent w ->
  (executeCommand command timeout sp now w).1 = Started pid ->
  let w0 := (executeCommand command timeout sp now w).2 in
  let requested := default DEFAULT_COMMAND_TIMEOUT timeout in
  promise_of (Started pid) w0 = Pending /\
  (forall evs result,
     promise_of (Started pid) (exec evs w0) = Fulfilled result ->
     exists before t after,
       evs = (before ++ (t, Timeout pid) :: after)%list /\
       promise_of (Started pid) (exec before w0) = Pending /\
       promise_of (Started pid) (step t (Timeout pid) (exec before w0)).2 =
         Fulfilled result /\
       (punctual evs w0 ->
          now + setTimeout_delay requested <= t /\
          (requested <= TIMEOUT_MAX -> now + requested <= t))) /\
  (forall evs code t,
     promise_of (Started pid) (exec evs w0) = Pending ->
     promise_of (Started pid) (step t (Exit pid code) (exec evs w0)).2 = Pending) /\
  (forall evs t,
     promise_of (Started pid) (exec evs w0) = Pending ->
     exists inv, invocations (exec evs w0) !! pid = Some inv /\
       promise_of (Started pid) (step t (Timeout pid) (exec evs w0)).2 =
         Fulfilled (CommandExecutionResult.mk pid (output inv) false)).
Proof.
  intros I Hstart. cbv zeta.
  pose proof (consistent_executeCommand command timeout sp now w I) as I0.
  unfold executeCommand in Hstart, I0 |- *.
  destruct (isCommandBlocked command (commandManager w)); [done|].
  destruct sp as [child|]; [|done]. simpl in Hstart. injection Hstart as <-.
  simpl in I0 |- *.
  set (requested := default DEFAULT_COMMAND_TIMEOUT timeout).
  set (due := now + setTimeout_delay requested).
  set (inv0 := mkInvocation "" Pending (Some due)).
  set (w0 := mkWorld _ _ _) in *.
  assert (Hinv0 : invocations w0 !! nextPid (terminalManager w) = Some inv0)
    by apply lookup_insert_eq.
  split; [by rewrite lookup_insert_eq|]. split; [|split].
  - intros evs result Hres.
    destruct (fulfilled_by_timer evs w0 _ inv0 due result I0 Hinv0 eq_refl eq_refl Hres)
      as (before & t & after & Hevs & Hpend & Hfire & Hdue).
    exists before, t, after. split; [done|]. split; [done|]. split; [done|].
    intros Hpunctual. specialize (Hdue Hpunctual).
    destruct (setTimeout_delay_ge requested) as [_ Hge]. subst due.
    split; [done|]. intros Hmax. specialize (Hge Hmax). lia.
  - intros evs code t Hpend. unfold onExit.
    destruct (invocations (exec evs w0) !! _) eqn:Hinv; [|by rewrite Hinv].
    destruct (sessions _ !! _); simpl; by rewrite Hinv.
  - intros evs t Hpend.
    destruct (pending_timer evs w0 _ inv0 due I0 Hinv0) as (inv & Hinv & Htimer);
      [done|].
    exists inv. split; [done|]. rewrite Hinv in Hpend.
    unfold onTimeout. rewrite Hinv, (Htimer Hpend). simpl.
    by rewrite lookup_insert_eq, Hpend.
Qed.

(** ** Reading a session *)

Lemma readOutput_archived pid tm completed :
  sessions tm !! pid = None -> completedSessions tm !! pid = Some completed ->
  readOutput pid tm = CompletedSession.output completed.
Proof. intros Hs Hc. unfold readOutput. by rewrite Hs, Hc. Qed.

Lemma readOutput_unknown pid tm :
  sessions tm !! pid = None -> completedSessions tm !! pid = None ->
  readOutput pid tm = "No session found with PID " +:+ pretty pid.
Proof. intros Hs Hc. unfold readOutput. by rewrite Hs, Hc. Qed.

(** For an active session [readOutput] returns the snapshot stored at
    spawn, which no callback updates: the empty string. *)
Lemma readOutput_active_empty w pid session :
  consistent w -> sessions (terminalManager w) !! pid = Some session ->
  readOutput pid (terminalManager w) = "".
Proof.
  intros I Hs. unfold readOutput. rewrite Hs. by destruct (active_snapshot _ I _ _ Hs).
Qed.

(** On exit, the archived output is the whole buffer of the call. *)
Lemma onExit_archives_buffer w pid session inv code now :
  consistent w -> sessions (terminalManager w) !! pid = Some session ->
  invocations w !! pid = Some inv ->
  readOutput pid (terminalManager (onExit pid code now w)) = output inv.
Proof.
  intros I Hs Hinv. unfold onExit, readOutput. rewrite Hinv, Hs. simpl.
  rewrite lookup_delete_eq, lookup_insert_eq. simpl.
  by destruct (active_snapshot _ I _ _ Hs) as [-> _].
Qed.

(** On forced termination, the archived output is empty, whatever the
    buffer of the call holds. *)
Lemma forceTerminate_archives_empty w pid session delivered now :
  consistent w -> sessions (terminalManager w) !! pid = Some session ->
  readOutput pid (forceTerminate pid (SignalReturns delivered) now (terminalManager w)).2 = "".
Proof.
  intros I Hs. unfold forceTerminate, readOutput. rewrite Hs. simpl.
  rewrite lookup_delete_eq, lookup_insert_eq. simpl.
  by destruct (active_snapshot _ I _ _ Hs) as [-> _].
Qed.

(** ** Further properties of runs *)

Lemma exec_app evs evs' w : exec (evs ++ evs') w = exec evs' (exec evs w).
Proof. revert w. induction evs as [|[now ev] evs IH]; intros w; simpl; [done|]. apply IH. Qed.

(** Only [blockCommand] and [unblockCommand] touch the gate. *)
Lemma step_commandManager now ev w :
  commandManager (step now ev w).2 =
  match ev with
  | CallBlockCommand command wr => (blockCommand command wr (commandManager w)).2
  | CallUnblockCommand command wr => (unblockCommand command wr (commandManager w)).2
  | _ => commandManager w
  end.
Proof.
  destruct ev; simpl; try done.
  - unfold executeCommand. destruct (isCommandBlocked _ _); [done|]. by destruct sp.
  - unfold onData. by destruct (invocations _ !! _).
  - unfold onExit. destruct (invocations _ !! _); [|done]. by destruct (sessions _ !! _).
  - unfold onError. by destruct (invocations _ !! _).
  - unfold onTimeout. destruct (invocations _ !! _) as [inv|]; [|done].
    by destruct (timer inv).
Qed.

(** In every state a run of the server reaches, the set holds no pattern
    twice, and neither does the listing. *)
Theorem gate_patterns_distinct wr file evs :
  let cm := commandManager (exec evs (boot wr file)) in
  NoDup (blockedCommands cm) /\ NoDup (listBlockedCommands cm).
Proof.
  cbv zeta.
  assert (H : NoDup (blockedCommands (commandManager (exec evs (boot wr file))))).
  { generalize (NoDup_newCommandManager wr file).
    change (newCommandManager wr file) with (commandManager (boot wr file)).
    generalize (boot wr file). induction evs as [|[now ev] evs IH]; intros w Hw; [done|].
    simpl. apply IH. rewrite step_commandManager.
    destruct ev; try done; [by apply NoDup_blockCommand | by apply NoDup_unblockCommand]. }
  split; [done|]. unfold listBlockedCommands. by rewrite merge_sort_Permutation.
Qed.

(** *** The listing of sessions *)

Lemma sessions_keyed_step now ev w :
  sessions_keyed (terminalManager w) -> sessions_keyed (terminalManager (step now ev w).2).
Proof.
  unfold sessions_keyed. intros Hk. destruct ev; simpl; try done.
  - unfold executeCommand. destruct (isCommandBlocked _ _); [done|].
    destruct sp; simpl; [|done]. intros pid s [[<- <-] | [_ Hs]]%lookup_insert_Some; [done|].
    by apply Hk.
  - unfold forceTerminate. destruct (sessions _ !! pid) eqn:Hp; [|done].
    destruct sg; [|done]. simpl. intros pid' s [_ Hs]%lookup_delete_Some. by apply Hk.
  - unfold onData. by destruct (invocations _ !! _).
  - unfold onExit. destruct (invocations _ !! _); [|done].
    destruct (sessions _ !! pid) eqn:Hp; [|done]. simpl.
    intros pid' s [_ Hs]%lookup_delete_Some. by apply Hk.
  - unfold onError. by destruct (invocations _ !! _).
  - unfold onTimeout. destruct (invocations _ !! _) as [inv|]; [|done].
    by destruct (timer inv).
Qed.

Lemma sessions_keyed_exec evs w :
  sessions_keyed (terminalManager w) -> sessions_keyed (terminalManager (exec evs w)).
Proof.
  revert w. induction evs as [|[now ev] evs IH]; intros w Hk; [done|].
  simpl. by apply IH, sessions_keyed_step.
Qed.

Lemma elem_of_listSessions now tm entry :
  entry ∈ listSessions now tm <->
  exists pid session, sessions tm !! pid = Some session /\
    entry = ActiveSession.mk pid (TerminalSession.isBlocked session)
              (Z.div (now - TerminalSession.startTime session) 1000).
Proof.
  unfold listSessions. rewrite list_elem_of_fmap. split.
  - intros ([pid session] & -> & Hin%elem_of_map_to_list). by exists pid, session.
  - intros (pid & session & Hs & ->). exists (pid, session).
    split; [done|]. by apply elem_of_map_to_list.
Qed.

(** In every state a run of the server reaches, [listSessions] has one
    entry for each active session and no other: the entry carries the
    identifier of the session, is never marked blocked, and no identifier is
    listed twice; archived sessions are not listed. *)
Theorem listSessions_lists_active wr file evs now :
  let tm := terminalManager (exec evs (boot wr file)) in
  (forall entry, entry ∈ listSessions now tm ->
     is_Some (sessions tm !! ActiveSession.pid entry) /\
     completedSessions tm !! ActiveSession.pid entry = None /\
     ActiveSession.isBlocked entry = false) /\
  (forall pid session, sessions tm !! pid = Some session ->
     ActiveSession.mk pid false (Z.div (now - TerminalSession.startTime session) 1000)
       ∈ listSessions now tm) /\
  length (listSessions now tm) = size (sessions tm) /\
  NoDup (ActiveSession.pid <$> listSessions now tm).
Proof.
  cbv zeta. pose proof (consistent_exec evs _ (consistent_boot wr file)) as I.
  assert (Hk : sessions_keyed (terminalManager (exec evs (boot wr file)))).
  { apply sessions_keyed_exec. intros pid s Hs. simpl in Hs. by rewrite lookup_empty in Hs. }
  split; [|split; [|split]].
  - intros entry (pid & session & Hs & ->)%elem_of_listSessions. simpl.
    destruct (Hk _ _ Hs) as [_ ->]. saturate I. eauto.
  - intros pid session Hs. apply elem_of_listSessions. exists pid, session.
    by destruct (Hk _ _ Hs) as [_ ->].
  - unfold listSessions. by rewrite length_fmap, length_map_to_list.
  - unfold listSessions. rewrite <- list_fmap_compose.
    apply (NoDup_fst_map_to_list (sessions (terminalManager (exec evs (boot wr file))))).
Qed.

(** *** Times *)

Lemma timed_step t t' ev w :
  timed t (terminalManager w) -> t <= t' -> timed t' (terminalManager (step t' ev w).2).
Proof.
  intros [Hs Hc] Hle.
  assert (Hkeep : timed t' (terminalManager w)).
  { split; [|done]. intros pid s H. specialize (Hs _ _ H). lia. }
  assert (Harchive : forall pid session code,
    sessions (terminalManager w) !! pid = Some session ->
    timed t' (mkTerminalManager (delete pid (sessions (terminalManager w)))
                (<[pid := CompletedSession.mk pid
                            (TerminalSession.lastOutput session +:+ code.1) code.2
                            (TerminalSession.startTime session) t']>
                   (completedSessions (terminalManager w)))
                (nextPid (terminalManager w)))).
  { intros pid session code Hp. split; simpl.
    - intros pid' s [_ H]%lookup_delete_Some. specialize (Hs _ _ H). lia.
    - intros pid' c [[<- <-] | [_ H]]%lookup_insert_Some; simpl; [|by eapply Hc].
      specialize (Hs _ _ Hp). lia. }
  destruct ev; simpl; try done.
  - unfold executeCommand. destruct (isCommandBlocked _ _); [done|].
    destruct sp; simpl; [|done]. split; simpl; [|done].
    intros pid s [[<- <-] | [_ H]]%lookup_insert_Some; simpl; [lia|].
    specialize (Hs _ _ H). lia.
  - unfold forceTerminate. destruct (sessions _ !! pid) as [session|] eqn:Hp; [|done].
    destruct sg; [|done]. simpl.
    specialize (Harchive pid session ("", None) Hp). simpl in Harchive.
    by rewrite append_empty_r in Harchive.
  - unfold onData. by destruct (invocations _ !! _).
  - unfold onExit. destruct (invocations _ !! _) as [inv|]; [|done].
    destruct (sessions _ !! pid) as [session|] eqn:Hp; [|done]. simpl.
    apply (Harchive pid session (output inv, code) Hp).
  - unfold onError. by destruct (invocations _ !! _).
  - unfold onTimeout. destruct (invocations _ !! _) as [inv|]; [|done].
    by destruct (timer inv).
Qed.

Lemma timed_exec t evs w :
  timed t (terminalManager w) -> chronological t evs ->
  timed (clock t evs) (terminalManager (exec evs w)).
Proof.
  revert t w. induction evs as [|[t' ev] evs IH]; intros t w Ht Hchr; [done|].
  destruct Hchr as [Hle Hchr]. simpl. apply IH; [|done]. by eapply timed_step.
Qed.

(** Along a run whose times do not decrease, every archived session ends
    no earlier than it started, and the run time that [listSessions]
    reports, at the time of the last event or later, is never negative. *)
Theorem times_are_ordered wr file t0 evs now entry :
  chronological t0 evs ->
  let tm := terminalManager (exec evs (boot wr file)) in
  (forall pid completed, completedSessions tm !! pid = Some completed ->
     CompletedSession.startTime completed <= CompletedSession.endTime completed) /\
  (clock t0 evs <= now -> entry ∈ listSessions now tm -> 0 <= ActiveSession.runtime entry).
Proof.
  intros Hchr. cbv zeta.
  destruct (timed_exec t0 evs (boot wr file)) as [Hs Hc]; [|done|].
  { split; intros pid x H; simpl in H; by rewrite lookup_empty in H. }
  split; [done|].
  intros Hnow (pid & session & Hp & ->)%elem_of_listSessions. simpl.
  specialize (Hs _ _ Hp). apply Z.div_pos; lia.
Qed.

(** *** The archive *)

Lemma archived_stable_exec evs w pid record :
  consistent w ->
  completedSessions (terminalManager w) !! pid = Some record ->
  completedSessions (terminalManager (exec evs w)) !! pid = Some record /\
  sessions (terminalManager (exec evs w)) !! pid = None.
Proof.
  revert w. induction evs as [|[now ev] evs IH]; intros w I Hc.
  - split; [done|]. destruct (sessions _ !! _) eqn:H; [|done]. saturate I. congruence.
  - simpl. destruct (archived_stable now ev w pid record I Hc) as [Hc' _].
    apply IH; [by apply consistent_step | done].
Qed.

(** Once a session is archived, in a state that a run of the server
    reaches, every later [readOutput] returns the archived output and every
    later [forceTerminate] returns false, whatever happens in between. *)
Theorem archived_output_is_final wr file evs evs' pid record sg now :
  let w := exec evs (boot wr file) in
  completedSessions (terminalManager w) !! pid = Some record ->
  let tm' := terminalManager (exec evs' w) in
  readOutput pid tm' = CompletedSession.output record /\
  forceTerminate pid sg now tm' = (false, tm').
Proof.
  cbv zeta. intros Hc.
  pose proof (consistent_exec evs _ (consistent_boot wr file)) as I.
  destruct (archived_stable_exec evs' _ pid record I Hc) as [Hc' Hs'].
  unfold readOutput, forceTerminate. by rewrite Hs', Hc'.
Qed.

(** *** The identifiers that name a session *)

Lemma known_step now ev w id :
  known id (terminalManager (step now ev w).2) <->
  known id (terminalManager w) \/ session_id (step now ev w).1 = Some id.
Proof.
  assert (Hmove : forall pid session completed,
    sessions (terminalManager w) !! pid = Some session ->
    known id (mkTerminalManager (delete pid (sessions (terminalManager w)))
                (<[pid := completed]> (completedSessions (terminalManager w)))
                (nextPid (terminalManager w))) <->
    known id (terminalManager w)).
  { intros pid session completed Hp. unfold known. simpl.
    destruct (decide (pid = id)) as [->|Hne].
    - rewrite lookup_delete_eq, lookup_insert_eq, Hp. split; intros _; eauto.
    - by rewrite lookup_delete_ne, lookup_insert_ne. }
  destruct ev; simpl; try (split; [by left | by intros [?|?]]).
  - unfold executeCommand. destruct (isCommandBlocked _ _); simpl.
    { split; [by left | by intros [?|?]]. }
    destruct sp; simpl.
    + unfold known. simpl. destruct (decide (nextPid (terminalManager w) = id)) as [->|Hne].
      * rewrite lookup_insert_eq. split; eauto.
      * rewrite lookup_insert_ne by done. split; [by left|]. intros [?|?]; [done|congruence].
    + split; [by left | by intros [?|?]].
  - unfold forceTerminate. destruct (sessions _ !! pid) eqn:Hp; simpl.
    + destruct sg; simpl.
      * rewrite (Hmove _ _ _ Hp). split; [by left | by intros [?|?]].
      * split; [by left | by intros [?|?]].
    + split; [by left | by intros [?|?]].
  - unfold onData. destruct (invocations _ !! _); split; try by left. all: by intros [?|?].
  - unfold onExit. destruct (invocations _ !! _).
    + destruct (sessions _ !! pid) eqn:Hp; simpl.
      * rewrite (Hmove _ _ _ Hp). split; [by left | by intros [?|?]].
      * split; [by left | by intros [?|?]].
    + split; [by left | by intros [?|?]].
  - unfold onError. destruct (invocations _ !! _); split; try by left. all: by intros [?|?].
  - unfold onTimeout. destruct (invocations _ !! _) as [inv|].
    + destruct (timer inv); split; try by left. all: by intros [?|?].
    + split; [by left | by intros [?|?]].
Qed.

Lemma known_exec evs w id :
  known id (terminalManager (exec evs w)) <->
  known id (terminalManager w) \/ id ∈ session_ids (responses evs w).
Proof.
  revert w. induction evs as [|[now ev] evs IH]; intros w; simpl.
  - unfold session_ids. simpl. rewrite elem_of_nil. tauto.
  - rewrite IH, known_step. unfold session_ids. simpl.
    destruct (session_id (step now ev w).1) as [id'|].
    + rewrite elem_of_cons. split; [intros [[?|Heq]|?] | intros [?|[->|?]]]; eauto.
      injection Heq as ->. eauto.
    + split; [intros [[?|?]|?] | intros [?|?]]; eauto. done.
Qed.

(** The identifiers that name a session, active or archived, at the end of
    a run of the server are exactly those that [executeCommand] returned for
    a started command during the run: no session is ever forgotten, and
    none appears that was not started. *)
Theorem sessions_are_the_started_commands wr file evs id :
  known id (terminalManager (exec evs (boot wr file))) <->
  id ∈ session_ids (responses evs (boot wr file)).
Proof.
  rewrite known_exec. unfold known. simpl. rewrite !lookup_empty.
  split; [intros [[[? ?]|[? ?]]|?]; done | by right].
Qed.

Lemma unknown_stable evs w id :
  id < nextPid (terminalManager w) -> ~ known id (terminalManager w) ->
  ~ known id (terminalManager (exec evs w)).
Proof.
  intros Hlt Hunknown [?|Hin]%known_exec; [done|].
  destruct (session_ids_run evs w) as [Hall _].
  rewrite Forall_forall in Hall. apply Hall in Hin. lia.
Qed.

Lemma readOutput_unknown_id id tm :
  ~ known id tm -> readOutput id tm = "No session found with PID " +:+ pretty id.
Proof.
  intros Hunknown. apply readOutput_unknown.
  - destruct (sessions tm !! id) eqn:H; [|done]. destruct Hunknown. left. eauto.
  - destruct (completedSessions tm !! id) eqn:H; [|done]. destruct Hunknown. right. eauto.
Qed.


(** An identifier taken by a call whose [spawn] threw is lost: the call
    stores no session, no later call gets the identifier, and [readOutput]
    answers not-found for it for ever. *)
Theorem failed_spawn_loses_identifier command timeout now w pid evs :
  consistent w ->
  (executeCommand command timeout SpawnThrows now w).1 = SpawnFailed pid ->
  let w1 := (executeCommand command timeout SpawnThrows now w).2 in
  sessions (terminalManager w1) = sessions (terminalManager w) /\
  (pid ∉ session_ids (responses evs w1)) /\
  readOutput pid (terminalManager (exec evs w1)) = "No session found with PID " +:+ pretty pid.
Proof.
  intros I Hfailed. cbv zeta. unfold executeCommand in *.
  destruct (isCommandBlocked _ _); [done|]. simpl in *. injection Hfailed as <-.
  set (w1 := mkWorld _ _ _).
  destruct (next_pid_unused w I) as (Hs & Hc & _).
  assert (Hunknown : ~ known (nextPid (terminalManager w)) (terminalManager w1)).
  { unfold known. simpl. rewrite Hs, Hc. by intros [[? ?]|[? ?]]. }
  assert (Hlt : nextPid (terminalManager w) < nextPid (terminalManager w1)) by (simpl; lia).
  split; [done|]. split.
  - intros Hin. apply (unknown_stable evs w1 _ Hlt Hunknown). apply known_exec. by right.
  - apply readOutput_unknown_id. by apply unknown_stable.
Qed.

(** A second [forceTerminate] on the same identifier returns false and
    changes nothing, and so does any [forceTerminate] that returns false. *)
Theorem forceTerminate_once pid sg sg' now now' tm :
  let r := forceTerminate pid sg now tm in
  (r.1 = true -> forceTerminate pid sg' now' r.2 = (false, r.2)) /\
  (r.1 = false -> r.2 = tm).
Proof.
  cbv zeta. unfold forceTerminate.
  destruct (sessions tm !! pid) eqn:Hs; simpl.
  - destruct sg; simpl; [|by rewrite Hs]. by rewrite lookup_delete_eq.
  - by rewrite Hs.
Qed.

(** *** The buffer of a call *)

Lemma captured_app pid evs evs' :
  captured pid (evs ++ evs') = captured pid evs +:+ captured pid evs'.
Proof.
  induction evs as [|[now ev] evs IH]; simpl; [done|].
  destruct ev; try done. case_decide; [|done]. by rewrite IH, append_assoc.
Qed.

Lemma step_output now ev w pid inv :
  consistent w -> invocations w !! pid = Some inv ->
  output <$> invocations (step now ev w).2 !! pid =
  Some (output inv +:+ captured pid [(now, ev)]).
Proof.
  intros I Hinv. saturate I.
  assert (Hkeep : output <$> invocations w !! pid = Some (output inv +:+ "")).
  { by rewrite Hinv, append_empty_r. }
  destruct ev; simpl; try done.
  - unfold executeCommand. destruct (isCommandBlocked _ _); [done|].
    destruct sp; simpl; [|done]. by rewrite lookup_insert_ne by lia.
  - unfold onData. destruct (decide (pid0 = pid)) as [->|Hne].
    + rewrite Hinv. simpl. by rewrite lookup_insert_eq, append_empty_r.
    + destruct (invocations w !! pid0); [|done]. simpl. by rewrite lookup_insert_ne.
  - unfold onExit. destruct (invocations w !! pid0); [|done].
    by destruct (sessions _ !! pid0).
  - unfold onError. destruct (invocations w !! pid0) as [inv0|] eqn:H0; [|done]. simpl.
    destruct (decide (pid0 = pid)) as [->|Hne].
    + rewrite lookup_insert_eq. simpl. rewrite append_empty_r. congruence.
    + by rewrite lookup_insert_ne.
  - unfold onTimeout. destruct (invocations w !! pid0) as [inv0|] eqn:H0; [|done].
    destruct (timer inv0); [|done]. simpl.
    destruct (decide (pid0 = pid)) as [->|Hne].
    + rewrite lookup_insert_eq. simpl. rewrite append_empty_r. congruence.
    + by rewrite lookup_insert_ne.
Qed.

(** The buffer of a call holds what it held, followed by the chunks that
    arrived for it, in order. *)
Lemma exec_output evs w pid inv :
  consistent w -> invocations w !! pid = Some inv ->
  output <$> invocations (exec evs w) !! pid = Some (output inv +:+ captured pid evs).
Proof.
  revert w inv. induction evs as [|[now ev] evs IH]; intros w inv I Hinv.
  - simpl. by rewrite Hinv, append_empty_r.
  - rewrite exec_cons. pose proof (step_output now ev w pid inv I Hinv) as Hstep.
    destruct (invocations (step now ev w).2 !! pid) as [inv'|] eqn:Hinv'; [|done].
    cbn [fmap option_fmap option_map] in Hstep. injection Hstep as Hout.
    rewrite (IH _ inv' (consistent_step now ev w I) Hinv'), Hout.
    change ((now, ev) :: evs) with ([(now, ev)] ++ evs)%list.
    by rewrite captured_app, append_assoc.
Qed.

(** The state that a started call leaves: the invariant holds, the closure
    of the call has an empty buffer, a pending promise and a pending timer,
    and the session is active. *)
Lemma started_call command timeout sp now w pid :
  consistent w ->
  (executeCommand command timeout sp now w).1 = Started pid ->
  let w0 := (executeCommand command timeout sp now w).2 in
  consistent w0 /\
  invocations w0 !! pid =
    Some (mkInvocation "" Pending
            (Some (now + setTimeout_delay (default DEFAULT_COMMAND_TIMEOUT timeout)))) /\
  is_Some (sessions (terminalManager w0) !! pid).
Proof.
  intros I Hstart. cbv zeta.
  pose proof (consistent_executeCommand command timeout sp now w I) as I0.
  unfold executeCommand in Hstart, I0 |- *.
  destruct (isCommandBlocked command (commandManager w)); [done|].
  destruct sp as [child|]; [|done]. simpl in Hstart. injection Hstart as <-.
  simpl in I0 |- *. split; [done|]. rewrite !lookup_insert_eq. eauto.
Qed.

(** When the timer of a started call is delivered, at or after the
    deadline, to the promise still pending, the promise is fulfilled, and
    stays so whatever follows, with the identifier of the call and exactly
    the chunks that had arrived for it until then, in their order of
    arrival. *)
Theorem timeout_delivers_captured_output command timeout sp now w pid before t after :
  consistent w ->
  (executeCommand command timeout sp now w).1 = Started pid ->
  let w0 := (executeCommand command timeout sp now w).2 in
  promise_of (Started pid) (exec before w0) = Pending ->
  now + default DEFAULT_COMMAND_TIMEOUT timeout <= t ->
  promise_of (Started pid) (exec (before ++ (t, Timeout pid) :: after) w0) =
    Fulfilled (CommandExecutionResult.mk pid (captured pid before) false).
Proof.
  intros I Hstart. cbv zeta. intros Hpend Hdue.
  destruct (started_call command timeout sp now w pid I Hstart) as (I0 & Hinv0 & _).
  set (w0 := (executeCommand command timeout sp now w).2) in *.
  destruct (pending_timer before w0 pid _ _ I0 Hinv0 (fun _ => eq_refl))
    as (inv & Hinv & Htimer).
  pose proof (exec_output before w0 pid _ I0 Hinv0) as Hout.
  rewrite Hinv in Hout. simpl in Hout. injection Hout as Hout.
  unfold promise_of in Hpend. rewrite Hinv in Hpend.
  pose proof (consistent_exec before w0 I0) as I1.
  rewrite exec_app, exec_cons.
  assert (Hfired : invocations (step t (Timeout pid) (exec before w0)).2 !! pid =
            Some (mkInvocation (output inv)
                    (Fulfilled (CommandExecutionResult.mk pid (output inv) false)) None)).
  { simpl. unfold onTimeout. rewrite Hinv, (Htimer Hpend).
    simpl. by rewrite lookup_insert_eq, Hpend. }
  rewrite (settled_stable after _ pid _ (consistent_step _ _ _ I1) Hfired) by done.
  simpl. by rewrite Hout.
Qed.

(** When a started call's child exits while its session is still active,
    the archive records the exit code and exactly the chunks that had
    arrived until then, in their order of arrival; [readOutput] returns them
    from then on, whatever arrives later. *)
Theorem exit_archives_captured_output command timeout sp now w pid before t code after :
  consistent w ->
  (executeCommand command timeout sp now w).1 = Started pid ->
  let w0 := (executeCommand command timeout sp now w).2 in
  is_Some (sessions (terminalManager (exec before w0)) !! pid) ->
  let w' := exec (before ++ (t, Exit pid code) :: after) w0 in
  readOutput pid (terminalManager w') = captured pid before /\
  CompletedSession.exitCode <$> completedSessions (terminalManager w') !! pid = Some code.
Proof.
  intros I Hstart. cbv zeta. intros [session Hs].
  destruct (started_call command timeout sp now w pid I Hstart) as (I0 & Hinv0 & _).
  set (w0 := (executeCommand command timeout sp now w).2) in *.
  destruct (pending_timer before w0 pid _ _ I0 Hinv0 (fun _ => eq_refl))
    as (inv & Hinv & _).
  pose proof (exec_output before w0 pid _ I0 Hinv0) as Hout.
  rewrite Hinv in Hout. simpl in Hout. injection Hout as Hout.
  pose proof (consistent_exec before w0 I0) as I1.
  destruct (active_snapshot _ I1 _ _ Hs) as [Hlast _].
  rewrite exec_app, exec_cons.
  set (record := CompletedSession.mk pid (output inv) code
                   (TerminalSession.startTime session) t).
  assert (Harchived : completedSessions
            (terminalManager (step t (Exit pid code) (exec before w0)).2) !! pid =
            Some record).
  { simpl. unfold onExit. rewrite Hinv, Hs. simpl.
    by rewrite lookup_insert_eq, Hlast. }
  destruct (archived_stable_exec after _ pid record (consistent_step _ _ _ I1) Harchived)
    as [Hc' Hs'].
  unfold readOutput. rewrite Hs', Hc'. simpl. by rewrite Hout.
Qed.

(** An error of the child rejects the pending promise of its call, for
    good: the timer does not fulfil it later. A promise already fulfilled
    keeps its result. The error leaves the session in the active set. *)
Theorem error_rejects_pending_call command timeout sp now w pid before t after :
  consistent w ->
  (executeCommand command timeout sp now w).1 = Started pid ->
  let w0 := (executeCommand command timeout sp now w).2 in
  let w1 := exec before w0 in
  let w2 := exec (before ++ (t, Error pid) :: after) w0 in
  (promise_of (Started pid) w1 = Pending -> promise_of (Started pid) w2 = Rejected) /\
  (forall result, promise_of (Started pid) w1 = Fulfilled result ->
     promise_of (Started pid) w2 = Fulfilled result) /\
  terminalManager (step t (Error pid) w1).2 = terminalManager w1.
Proof.
  intros I Hstart. cbv zeta.
  destruct (started_call command timeout sp now w pid I Hstart) as (I0 & Hinv0 & _).
  set (w0 := (executeCommand command timeout sp now w).2) in *.
  destruct (pending_timer before w0 pid _ _ I0 Hinv0 (fun _ => eq_refl))
    as (inv & Hinv & _).
  pose proof (consistent_exec before w0 I0) as I1.
  rewrite exec_app, exec_cons. unfold promise_of at 1 3. rewrite Hinv.
  assert (Herror : invocations (step t (Error pid) (exec before w0)).2 !! pid =
            Some (mkInvocation (output inv) (reject (promise inv)) (timer inv))).
  { simpl. unfold onError. rewrite Hinv. simpl. by rewrite lookup_insert_eq. }
  split; [|split].
  - intros Hp. rewrite (settled_stable after _ pid _ (consistent_step _ _ _ I1) Herror);
      simpl; by rewrite Hp.
  - intros result Hp. rewrite (settled_stable after _ pid _ (consistent_step _ _ _ I1) Herror);
      simpl; by rewrite Hp.
  - simpl. unfold onError. by rewrite Hinv.
Qed.

End Runs.

(** ** The run [hello_run] *)

(** C1, on the run [hello_run]: the session 1 is active and the buffer of its
    call holds the chunk "hello", yet [readOutput 1] returns the empty
    string: it reads [lastOutput], a copy of the buffer taken when it was
    still empty. (For an archived or unknown identifier [readOutput] does
    what C1 says: [readOutput_archived], [readOutput_unknown].) *)
Theorem readOutput_active_misses_captured_output (DEFAULT_COMMAND_TIMEOUT : Z) :
  let w := exec DEFAULT_COMMAND_TIMEOUT hello_run (boot WriteOk FileAbsent) in
  TerminalSession.lastOutput <$> sessions (terminalManager w) !! 1 = Some "" /\
  completedSessions (terminalManager w) !! 1 = None /\
  output <$> invocations w !! 1 = Some "hello" /\
  readOutput 1 (terminalManager w) = "".
Proof. vm_compute. done. Qed.

(** C2, on the run [hello_run] followed by [forceTerminate 1]: the chunk
    "hello" was captured before the transition, and the archived output is
    empty. (An exit of the child at the same point archives "hello":
    [onExit_archives_buffer].) *)
Theorem forceTerminate_loses_captured_output (DEFAULT_COMMAND_TIMEOUT : Z) :
  let w := exec DEFAULT_COMMAND_TIMEOUT hello_run (boot WriteOk FileAbsent) in
  let terminated :=
    (step DEFAULT_COMMAND_TIMEOUT 50 (CallForceTerminate 1 (SignalReturns true)) w).2 in
  let exited := (step DEFAULT_COMMAND_TIMEOUT 50 (Exit 1 (Some 0)) w).2 in
  output <$> invocations w !! 1 = Some "hello" /\
  sessions (terminalManager terminated) !! 1 = None /\
  CompletedSession.output <$> completedSessions (terminalManager terminated) !! 1 = Some "" /\
  readOutput 1 (terminalManager terminated) = "" /\
  readOutput 1 (terminalManager exited) = "hello".
Proof. vm_compute. done. Qed.

(** ** Instances on the run [hello_run], with a default timeout of 1000 ms *)

Lemma executeCommand_blocked_iff_witness :
  let w := boot WriteOk FileAbsent in
  (executeCommand 1000 "SUDO reboot" None SpawnThrows 0 w).2 = w /\
  (executeCommand 1000 "ls" None (SpawnReturns hello_child) 0 w).1 = Started 1.
Proof.
  cbv zeta. split.
  - destruct (executeCommand_blocked_iff 1000 "SUDO reboot" None SpawnThrows 0
                (boot WriteOk FileAbsent)) as [[_ Hblocked] _].
    destruct Hblocked as (result & _ & _ & _ & Hsame); [|exact Hsame].
    exists "sudo". split; [vm_compute; repeat constructor|].
    exists "", " reboot". reflexivity.
  - destruct (executeCommand_blocked_iff 1000 "ls" None (SpawnReturns hello_child) 0
                (boot WriteOk FileAbsent)) as (_ & _ & Hstarted).
    apply (Hstarted) with (child := hello_child); [|reflexivity].
    intros Hfound. apply isCommandBlocked_spec in Hfound. vm_compute in Hfound.
    discriminate Hfound.
Defined.

(** C3, as stated, fails when [spawn] throws, as it does for a command
    that holds a NUL character: the command contains no blocked pattern, so
    the blocked result is not returned, and yet no process is spawned and no
    session is registered. *)
Lemma executeCommand_spawn_throws_no_session :
  let w := boot WriteOk FileAbsent in
  let r := executeCommand 1000 ("echo " +:+ NUL) None SpawnThrows 0 w in
  isCommandBlocked ("echo " +:+ NUL) (commandManager w) = false /\
  r.1 = SpawnFailed 1 /\
  promise_of r.1 r.2 = Rejected /\
  sessions (terminalManager r.2) = ∅ /\
  listSessions 0 (terminalManager r.2) = [].
Proof. vm_compute. done. Qed.

Lemma forceTerminate_archives_witness :
  let tm := terminalManager (exec 1000 hello_run (boot WriteOk FileAbsent)) in
  forceTerminate 7 (SignalReturns true) 50 tm = (false, tm) /\
  (forceTerminate 1 (SignalReturns true) 50 tm).1 = true.
Proof.
  cbv zeta. split.
  - apply (forceTerminate_archives 7 (SignalReturns true) 50). reflexivity.
  - eapply (forceTerminate_archives 1 (SignalReturns true) 50); reflexivity.
Defined.

Lemma session_ids_strictly_increasing_witness :
  sessions (terminalManager (exec 1000 hello_run (boot WriteOk FileAbsent))) !! 2 = None.
Proof.
  eapply (session_ids_strictly_increasing 1000 WriteOk FileAbsent hello_run)
    with (command := "ls") (timeout := None) (sp := SpawnReturns hello_child) (now := 30).
  reflexivity.
Defined.

Lemma archived_exactly_once_witness :
  let w := exec 1000 hello_run (boot WriteOk FileAbsent) in
  onExit 7 (Some 0) 50 w = w.
Proof.
  cbv zeta.
  apply (archived_exactly_once 1000 WriteOk FileAbsent hello_run). reflexivity.
Defined.

Lemma execute_resolves_only_at_timeout_witness :
  let w0 := (executeCommand 1000 "echo hello" (Some 100) (SpawnReturns hello_child) 0
               (boot WriteOk FileAbsent)).2 in
  promise_of (Started 1) w0 = Pending /\
  forall evs result,
    promise_of (Started 1) (exec 1000 evs w0) = Fulfilled result ->
    exists before t after,
      evs = (before ++ (t, Timeout 1) :: after)%list /\
      (punctual 1000 evs w0 -> 100 <= t).
Proof.
  cbv zeta.
  destruct (execute_resolves_only_at_timeout 1000 "echo hello" (Some 100)
              (SpawnReturns hello_child) 0 (boot WriteOk FileAbsent) 1
              (consistent_boot WriteOk FileAbsent) eq_refl)
    as (Hpending & Honly & _).
  split; [exact Hpending|]. intros evs result Hres.
  destruct (Honly evs result Hres) as (before & t & after & Hevs & _ & _ & Hdue).
  exists before, t, after. split; [exact Hevs|].
  intros Hpunctual. destruct (Hdue Hpunctual) as [_ Hle].
  apply Hle. unfold TIMEOUT_MAX. simpl. lia.
Defined.

(** C10, as stated, fails for a requested timeout above [TIMEOUT_MAX]: the
    timer applies a delay of 1 millisecond, and on a run that delivers it on
    time, at time 1, the promise is fulfilled long before the 2147483648
    milliseconds requested have elapsed. *)
Lemma execute_resolves_before_large_timeout :
  let w0 := (executeCommand 1000 "sleep 1" (Some 2147483648) (SpawnReturns hello_child) 0
               (boot WriteOk FileAbsent)).2 in
  punctual 1000 [(1, Timeout 1)] w0 /\
  promise_of (Started 1) w0 = Pending /\
  promise_of (Started 1) (exec 1000 [(1, Timeout 1)] w0) =
    Fulfilled (CommandExecutionResult.mk 1 "" false) /\
  1 < 0 + 2147483648.
Proof.
  cbv zeta. split; [|split; [|split]]; [|reflexivity|reflexivity|lia].
  vm_compute. split; [discriminate|exact I].
Qed.

(** ** Instances of the further properties of runs *)

Lemma listSessions_lists_active_witness :
  ActiveSession.mk 1 false 4 ∈
    listSessions 4200 (terminalManager (exec 1000 hello_run (boot WriteOk FileAbsent))).
Proof.
  destruct (listSessions_lists_active 1000 WriteOk FileAbsent hello_run 4200)
    as (_ & Hlisted & _).
  apply (Hlisted 1 (TerminalSession.mk 1 hello_child "" false 0)). reflexivity.
Defined.

Lemma times_are_ordered_witness :
  let record := CompletedSession.mk 1 "" None 0 50 in
  completedSessions (terminalManager (exec 1000 terminated_run (boot WriteOk FileAbsent)))
    !! 1 = Some record /\
  CompletedSession.startTime record <= CompletedSession.endTime record.
Proof.
  cbv zeta. split; [reflexivity|].
  destruct (times_are_ordered 1000 WriteOk FileAbsent 0 terminated_run 50
              (ActiveSession.mk 1 false 0)) as [Hordered _].
  - simpl. lia.
  - apply (Hordered 1). reflexivity.
Defined.

Lemma archived_output_is_final_witness :
  readOutput 1
    (terminalManager
       (exec 1000 [(60, Data 1 "late"); (70, Exit 1 (Some 0))]
          (exec 1000 terminated_run (boot WriteOk FileAbsent)))) = "".
Proof.
  apply (archived_output_is_final 1000 WriteOk FileAbsent terminated_run
           [(60, Data 1 "late"); (70, Exit 1 (Some 0))] 1
           (CompletedSession.mk 1 "" None 0 50) (SignalReturns true) 80).
  reflexivity.
Defined.


Lemma failed_spawn_loses_identifier_witness :
  let w1 := (executeCommand 1000 "ls" None SpawnThrows 0 (boot WriteOk FileAbsent)).2 in
  readOutput 1 (terminalManager (exec 1000 hello_run w1)) = "No session found with PID 1".
Proof.
  cbv zeta.
  apply (failed_spawn_loses_identifier 1000 "ls" None 0 (boot WriteOk FileAbsent) 1 hello_run
           (consistent_boot WriteOk FileAbsent)).
  reflexivity.
Defined.

Lemma forceTerminate_once_witness :
  let tm := terminalManager (exec 1000 hello_run (boot WriteOk FileAbsent)) in
  let tm' := (forceTerminate 1 (SignalReturns true) 50 tm).2 in
  forceTerminate 1 (SignalReturns true) 60 tm' = (false, tm').
Proof.
  cbv zeta.
  apply (forceTerminate_once 1 (SignalReturns true) (SignalReturns true) 50 60).
  reflexivity.
Defined.

Lemma timeout_delivers_captured_output_witness :
  let w0 := (executeCommand 1000 "echo hello" (Some 100) (SpawnReturns hello_child) 0
               (boot WriteOk FileAbsent)).2 in
  promise_of (Started 1)
    (exec 1000 ([(20, Data 1 "hel"); (30, Data 1 "lo")] ++
                (100, Timeout 1) :: [(200, Data 1 " late")]) w0) =
  Fulfilled (CommandExecutionResult.mk 1 "hello" false).
Proof.
  cbv zeta.
  apply (timeout_delivers_captured_output 1000 "echo hello" (Some 100)
           (SpawnReturns hello_child) 0 (boot WriteOk FileAbsent) 1
           [(20, Data 1 "hel"); (30, Data 1 "lo")] 100 [(200, Data 1 " late")]
           (consistent_boot WriteOk FileAbsent) eq_refl eq_refl).
  simpl. lia.
Defined.

Lemma exit_archives_captured_output_witness :
  let w0 := (executeCommand 1000 "echo hello" (Some 100) (SpawnReturns hello_child) 0
               (boot WriteOk FileAbsent)).2 in
  readOutput 1
    (terminalManager
       (exec 1000 ([(20, Data 1 "hello")] ++ (30, Exit 1 (Some 0)) :: [(40, Data 1 " late")])
          w0)) = "hello".
Proof.
  cbv zeta.
  apply (exit_archives_captured_output 1000 "echo hello" (Some 100)
           (SpawnReturns hello_child) 0 (boot WriteOk FileAbsent) 1
           [(20, Data 1 "hello")] 30 (Some 0) [(40, Data 1 " late")]
           (consistent_boot WriteOk FileAbsent) eq_refl).
  vm_compute. eexists. reflexivity.
Defined.

Lemma error_rejects_pending_call_witness :
  let w0 := (executeCommand 1000 "echo hello" (Some 100) (SpawnReturns hello_child) 0
               (boot WriteOk FileAbsent)).2 in
  promise_of (Started 1)
    (exec 1000 ([(20, Data 1 "hello")] ++ (30, Error 1) :: [(100, Timeout 1)]) w0) =
  Rejected.
Proof.
  cbv zeta.
  apply (error_rejects_pending_call 1000 "echo hello" (Some 100)
           (SpawnReturns hello_child) 0 (boot WriteOk FileAbsent) 1
           [(20, Data 1 "hello")] 30 [(100, Timeout 1)]
           (consistent_boot WriteOk FileAbsent) eq_refl).
  reflexivity.
Defined.

(** * The file operations *)

Section FilesystemProperties.

Variables (sep cwd : string) (HOME USERPROFILE : option string).
Variables (resolve dirname : string -> string) (join : string -> string -> string).

Local Abbreviation initAllowedDirectories :=
  (initAllowedDirectories cwd HOME USERPROFILE).
Local Abbreviation isAllowedPath := (isAllowedPath sep cwd HOME USERPROFILE resolve).
Local Abbreviation listAllowedDirectories :=
  (listAllowedDirectories cwd HOME USERPROFILE).
Local Abbreviation readFile := (readFile sep cwd HOME USERPROFILE resolve).
Local Abbreviation readMultipleFiles := (readMultipleFiles sep cwd HOME USERPROFILE resolve).
Local Abbreviation readMultipleFiles_loop :=
  (readMultipleFiles_loop sep cwd HOME USERPROFILE resolve).
Local Abbreviation writeFile := (writeFile sep cwd HOME USERPROFILE resolve dirname).
Local Abbreviation createDirectory := (createDirectory sep cwd HOME USERPROFILE resolve).
Local Abbreviation listDirectory := (listDirectory sep cwd HOME USERPROFILE resolve).
Local Abbreviation moveFile := (moveFile sep cwd HOME USERPROFILE resolve dirname).
Local Abbreviation searchFiles := (searchFiles sep cwd HOME USERPROFILE resolve join).

Lemma isAllowedPath_loop_spec (resolvedPath : string) (dirs : list string) :
  isAllowedPath_loop sep resolvedPath dirs = true <->
  exists dir, dir ∈ dirs /\
    (resolvedPath = dir \/ exists rest, resolvedPath = dir +:+ sep +:+ rest).
Proof.
  induction dirs as [|d dirs IH]; simpl.
  - split; [done | intros (dir & Hin & _); by apply elem_of_nil in Hin].
  - destruct (bool_decide (resolvedPath = d) || JsString.startsWith resolvedPath (d +:+ sep))
      eqn:Hd.
    + split; [intros _ | done]. exists d. split; [by left|].
      apply orb_true_iff in Hd as [Heq%bool_decide_eq_true | (rest & Hrest)%startsWith_spec].
      * by left.
      * right. exists rest. by rewrite <- append_assoc.
    + apply orb_false_iff in Hd as [Hne%bool_decide_eq_false Hpre].
      rewrite IH. split; intros (dir & Hin & Hdir).
      * exists dir. split; [by right | done].
      * apply elem_of_cons in Hin as [-> | Hin]; [|by exists dir].
        destruct Hdir as [? | (rest & Hrest)]; [done|].
        apply not_true_iff_false in Hpre. destruct Hpre. apply startsWith_spec.
        exists rest. by rewrite append_assoc.
Qed.

Lemma isAllowedPath_state (filePath : string) (dirs : list string) :
  (isAllowedPath filePath dirs).2 = (listAllowedDirectories dirs).1.
Proof. reflexivity. Qed.

Lemma listAllowedDirectories_fixed (dirs : list string) :
  (listAllowedDirectories (listAllowedDirectories dirs).1).1 = (listAllowedDirectories dirs).1.
Proof. unfold listAllowedDirectories. simpl. by destruct dirs. Qed.

Lemma isAllowedPath_again (p q : string) (dirs : list string) :
  isAllowedPath p (isAllowedPath q dirs).2 = isAllowedPath p dirs.
Proof. unfold isAllowedPath. simpl. by destruct dirs. Qed.

(** [isAllowedPath] answers true exactly when the resolved path is one of
    the allowed directories or continues one of them after a separator; a
    path that merely starts with the name of an allowed directory is not
    allowed by it. *)
Theorem isAllowedPath_iff (filePath : string) (dirs : list string) :
  (isAllowedPath filePath dirs).1 = true <->
  exists dir, dir ∈ (listAllowedDirectories dirs).1 /\
    (resolve filePath = dir \/ exists rest, resolve filePath = dir +:+ sep +:+ rest).
Proof. apply isAllowedPath_loop_spec. Qed.

(** When neither [HOME] nor [USERPROFILE] is set to a non-empty value, the
    list built on first use holds the empty string as home directory, and
    every path whose resolved form starts with the separator is allowed. *)
Theorem empty_home_allows_rooted_paths (filePath : string) :
  (HOME = None \/ HOME = Some "") -> (USERPROFILE = None \/ USERPROFILE = Some "") ->
  JsString.startsWith (resolve filePath) sep = true ->
  (isAllowedPath filePath []).1 = true.
Proof.
  intros Hhome Hprofile (rest & Hrest)%startsWith_spec.
  apply isAllowedPath_loop_spec. exists "". split.
  - simpl. destruct Hhome as [-> | ->], Hprofile as [-> | ->]; simpl;
      apply elem_of_cons; right; by left.
  - right. by exists rest.
Qed.

Lemma readFile_state (path : string) (read : Outcome string) (dirs : list string) :
  allowedDirectories (readFile path read dirs) = (listAllowedDirectories dirs).1.
Proof. unfold readFile. destruct (negb _); [done|]. by destruct read. Qed.

Lemma readMultipleFiles_loop_state (paths : list string) (reads : nat -> Outcome string)
    (i : nat) (made : list FsCall) (results : list string) (dirs : list string) :
  allowedDirectories (readMultipleFiles_loop i paths reads made results dirs) =
  (if paths is [] then dirs else (listAllowedDirectories dirs).1).
Proof.
  revert i made results dirs.
  induction paths as [|path paths IH]; intros i made results dirs; [done|].
  simpl. rewrite IH, readFile_state. destruct paths; [done|].
  apply listAllowedDirectories_fixed.
Qed.

(** The list of allowed directories is built on the first use and never
    changed afterwards: every operation that checks a path leaves the list
    that [listAllowedDirectories] returns, which is the given one when that
    is not empty and otherwise the working directory, the home directory,
    [C:/], [D:/] and [/tmp]. *)
Theorem allowedDirectories_built_once (dirs : list string) (p q content : string)
    (read : Outcome string) (reads : nat -> Outcome string) (paths : list string)
    (entries : Outcome (list (bool * string))) (found : Outcome (list string))
    (made done : Outcome unit) :
  let current := (listAllowedDirectories dirs).1 in
  current = (if dirs is [] then
               [cwd; or_else HOME (or_else USERPROFILE ""); "C:/"; "D:/"; "/tmp"]
             else dirs) /\
  (listAllowedDirectories dirs).2 = current /\
  (listAllowedDirectories current).1 = current /\
  (isAllowedPath p dirs).2 = current /\
  allowedDirectories (readFile p read dirs) = current /\
  allowedDirectories (readMultipleFiles paths reads dirs) =
    (if paths is [] then dirs else current) /\
  allowedDirectories (writeFile p content made done dirs) = current /\
  allowedDirectories (createDirectory p made dirs) = current /\
  allowedDirectories (listDirectory p entries dirs) = current /\
  allowedDirectories (moveFile p q made done dirs) = current /\
  allowedDirectories (searchFiles p q found dirs) = current.
Proof.
  cbv zeta. split; [by destruct dirs|]. split; [done|].
  split; [apply listAllowedDirectories_fixed|]. split; [done|].
  split; [apply readFile_state|]. split; [apply readMultipleFiles_loop_state|].
  split; [|split; [|split; [|split]]].
  - unfold writeFile. destruct (negb _); [done|]. by destruct made as [[]|], done as [[]|].
  - unfold createDirectory. destruct (negb _); [done|]. by destruct made as [[]|].
  - unfold listDirectory. destruct (negb _); [done|]. by destruct entries.
  - unfold moveFile. rewrite !isAllowedPath_again.
    destruct (negb (isAllowedPath p dirs).1); [done|].
    destruct (negb (isAllowedPath q dirs).1); [done|].
    by destruct made as [[]|], done as [[]|].
  - unfold searchFiles. destruct (negb _); [done|]. by destruct found.
Qed.

(** An operation whose path is not allowed calls neither the file system
    nor [glob]: it throws the access-denied error of the operation, naming
    the path. [moveFile] does so when either path is not allowed, and names
    the source if that is the one denied, the destination otherwise. *)
Theorem denied_path_touches_nothing (dirs : list string) (p q content : string)
    (read : Outcome string) (entries : Outcome (list (bool * string)))
    (found : Outcome (list string)) (made done : Outcome unit) :
  (isAllowedPath p dirs).1 = false ->
  (calls (readFile p read dirs) = [] /\
   outcome (readFile p read dirs) =
     Throws ("Error reading file: Access denied to path: " +:+ p)) /\
  (calls (writeFile p content made done dirs) = [] /\
   outcome (writeFile p content made done dirs) =
     Throws ("Error writing file: Access denied to path: " +:+ p)) /\
  (calls (createDirectory p made dirs) = [] /\
   outcome (createDirectory p made dirs) =
     Throws ("Error creating directory: Access denied to path: " +:+ p)) /\
  (calls (listDirectory p entries dirs) = [] /\
   outcome (listDirectory p entries dirs) =
     Throws ("Error listing directory: Access denied to path: " +:+ p)) /\
  (calls (searchFiles p q found dirs) = [] /\
   outcome (searchFiles p q found dirs) =
     Throws ("Error searching files: Access denied to path: " +:+ p)) /\
  (calls (moveFile p q made done dirs) = [] /\
   outcome (moveFile p q made done dirs) =
     Throws ("Error moving file: Access denied to path: " +:+ p)) /\
  (calls (moveFile q p made done dirs) = [] /\
   outcome (moveFile q p made done dirs) =
     Throws ("Error moving file: Access denied to path: " +:+
             (if (isAllowedPath q dirs).1 then p else q))).
Proof.
  intros Hdenied.
  unfold readFile, writeFile, createDirectory, listDirectory, searchFiles, moveFile.
  rewrite !isAllowedPath_again, Hdenied. simpl.
  repeat (split; [done|]).
  by destruct (isAllowedPath_loop sep (resolve q) _).
Qed.

(** [writeFile] writes only to an allowed path and only after [fs.mkdir]
    has created the directory of the file; [moveFile] renames only when both
    paths are allowed and only after [fs.mkdir] has created the directory of
    the destination. *)
Theorem write_follows_mkdir (dirs : list string) (p q content : string)
    (made done : Outcome unit) :
  (FsWriteFile p content ∈ calls (writeFile p content made done dirs) ->
   (isAllowedPath p dirs).1 = true /\ made = Returns tt /\
   calls (writeFile p content made done dirs) =
     [FsMkdir (dirname p); FsWriteFile p content]) /\
  (FsRename p q ∈ calls (moveFile p q made done dirs) ->
   (isAllowedPath p dirs).1 = true /\ (isAllowedPath q dirs).1 = true /\
   made = Returns tt /\
   calls (moveFile p q made done dirs) = [FsMkdir (dirname q); FsRename p q]).
Proof.
  split.
  - unfold writeFile. destruct (isAllowedPath p dirs).1 eqn:Hp; cbn [negb].
    + destruct made as [[]|]; [by destruct done as [[]|] |]. cbn [calls].
      intros [Heq | Hin%elem_of_nil]%elem_of_cons; done.
    + cbn [calls]. by intros Hin%elem_of_nil.
  - unfold moveFile. rewrite !isAllowedPath_again.
    destruct (isAllowedPath p dirs).1 eqn:Hp; cbn [negb];
      [|cbn [calls]; by intros Hin%elem_of_nil].
    destruct (isAllowedPath q dirs).1 eqn:Hq; cbn [negb];
      [|cbn [calls]; by intros Hin%elem_of_nil].
    destruct made as [[]|]; [by destruct done as [[]|] |]. cbn [calls].
    intros [Heq | Hin%elem_of_nil]%elem_of_cons; done.
Qed.

(** *** Reading a batch of files *)

Lemma readMultipleFiles_loop_outcome (paths : list string) (reads : nat -> Outcome string)
    (i : nat) (made : list FsCall) (results : list string) (dirs : list string) :
  exists lines,
    outcome (readMultipleFiles_loop i paths reads made results dirs) =
      Returns (results ++ lines)%list /\
    length lines = length paths /\
    forall (k : nat) (path : string), paths !! k = Some path ->
      lines !! k =
        Some (match outcome (readFile path (reads (i + k)%nat) dirs) with
              | Returns content => "File: " +:+ path +:+ LF +:+ content
              | Throws message => "Error reading " +:+ path +:+ ": " +:+ message
              end).
Proof.
  revert i made results dirs.
  induction paths as [|path paths IH]; intros i made results dirs.
  - exists []. simpl. rewrite app_nil_r. done.
  - simpl. destruct (IH (S i) (made ++ calls (readFile path (reads i) dirs))%list
                       (results ++ [match outcome (readFile path (reads i) dirs) with
                                    | Returns content => "File: " +:+ path +:+ LF +:+ content
                                    | Throws message =>
                                        "Error reading " +:+ path +:+ ": " +:+ message
                                    end])%list
                       (allowedDirectories (readFile path (reads i) dirs)))
      as (lines & Hout & Hlen & Hlines).
    eexists (_ :: lines). split; [|split].
    + rewrite Hout. by rewrite <- app_assoc.
    + simpl. by rewrite Hlen.
    + intros [|k] path' Hk; simpl in Hk |- *.
      * injection Hk as <-. by rewrite Nat.add_0_r.
      * rewrite (Hlines k path' Hk), Nat.add_succ_r, readFile_state. cbn [Nat.add].
        change ((listAllowedDirectories dirs).1) with ((isAllowedPath path dirs).2).
        unfold readFile. by rewrite !isAllowedPath_again.
Qed.

(** [readMultipleFiles] never throws: it returns one line for each path,
    in the order of the paths. The line of a file that was read holds its
    path and content; the line of a path that is not allowed, or that could
    not be read, holds the error, and the rest of the batch is still
    read. *)
Theorem readMultipleFiles_one_line_per_path (paths : list string)
    (reads : nat -> Outcome string) (dirs : list string) :
  exists lines,
    outcome (readMultipleFiles paths reads dirs) = Returns lines /\
    length lines = length paths /\
    forall (k : nat) (path : string), paths !! k = Some path ->
      ((isAllowedPath path dirs).1 = false ->
       lines !! k = Some ("Error reading " +:+ path +:+
                          ": Error reading file: Access denied to path: " +:+ path)) /\
      ((isAllowedPath path dirs).1 = true -> forall content,
       reads k = Returns content ->
       lines !! k = Some ("File: " +:+ path +:+ LF +:+ content)) /\
      ((isAllowedPath path dirs).1 = true -> forall message,
       reads k = Throws message ->
       lines !! k = Some ("Error reading " +:+ path +:+ ": Error reading file: "
                          +:+ message)).
Proof.
  destruct (readMultipleFiles_loop_outcome paths reads 0 [] [] dirs)
    as (lines & Hout & Hlen & Hlines).
  exists lines. split; [done|]. split; [done|].
  intros k path Hk. rewrite (Hlines k path Hk). cbn [Nat.add]. unfold readFile.
  cbv zeta. split; [|split].
  - intros Ha. rewrite Ha. done.
  - intros Ha content Hr. rewrite Ha, Hr. done.
  - intros Ha message Hr. rewrite Ha, Hr. done.
Qed.

End FilesystemProperties.

(** ** Instances on a POSIX platform

    The separator is [/], the working directory [/srv/app], and the paths
    are absolute and normalised, so that [path.resolve] returns them as they
    are. *)

Lemma empty_home_allows_rooted_paths_witness :
  (isAllowedPath "/" "/srv/app" None (Some "") (fun p => p) "/etc/passwd" []).1 = true.
Proof.
  apply (empty_home_allows_rooted_paths "/" "/srv/app" None (Some "") (fun p => p)
           "/etc/passwd"); [by left | by right | reflexivity].
Defined.

Lemma denied_path_touches_nothing_witness :
  calls (readFile "/" "/srv/app" (Some "/home/user") None (fun p => p)
           "/etc/passwd" (Returns "root:x:0:0") []) = [].
Proof.
  apply (denied_path_touches_nothing "/" "/srv/app" (Some "/home/user") None (fun p => p)
           (fun p => "/tmp") (fun a b => a +:+ "/" +:+ b) [] "/etc/passwd" "/tmp/x" ""
           (Returns "root:x:0:0") (Returns []) (Returns []) (Returns tt) (Returns tt)).
  reflexivity.
Defined.

Lemma write_follows_mkdir_witness :
  calls (writeFile "/" "/srv/app" (Some "/home/user") None (fun p => p) (fun p => "/tmp")
           "/tmp/a.txt" "hello" (Returns tt) (Throws "ENOSPC") []) =
  [FsMkdir "/tmp"; FsWriteFile "/tmp/a.txt" "hello"].
Proof.
  apply (write_follows_mkdir "/" "/srv/app" (Some "/home/user") None (fun p => p)
           (fun p => "/tmp") [] "/tmp/a.txt" "/tmp/b.txt" "hello" (Returns tt)
           (Throws "ENOSPC")).
  vm_compute. apply list_elem_of_further, list_elem_of_here.
Defined.
